(** * A shallow embedding of the Mapbox vector tile decoder (src/tile.ts)

    The decoder reads a protobuf-encoded tile through a wire reader that
    owns one mutable cursor.  The cursor is shared by the tile, its layers
    and their features, so the embedding threads it explicitly: a
    computation takes the (immutable) byte buffer and the cursor position
    and returns a value together with the new position, or the exception it
    raised together with the position the cursor was left at.

    The file holds two versions of the decoder, one after the other; the
    embedding follows the first, current one (over [BinaryReader] of
    @protobuf-ts/runtime).

    Numbers: every number the decoder computes with is an integer held in a
    JavaScript number (offsets, lengths, uint32/sint32 wire values and their
    running sums).  They are embedded as [Z]; the embedding is exact as long
    as the magnitudes stay below 2^53.  The products of [signedArea] pass
    2^53 for coordinates that a tile can hold (from about 2^26 on), so the
    arithmetic of [signedArea] is embedded with the rounding of IEEE 754
    doubles, [round_double].  The Mercator projection of [toGeoJSON] is
    floating point code on non-integers and is taken as a parameter. *)

From Stdlib Require Import ZArith Lia List String Strings.Byte Bool Sorted.
From Stdlib Require DecimalString.
From stdpp Require Import base option list gmap strings.

Local Open Scope Z_scope.
Local Open Scope list_scope.
Set Warnings "-register-all".

(** ** Outcomes and the cursor monad *)

(** The exceptions the embedded code can raise. *)
Inductive exn : Type :=
| OutOfBounds                    (* [new Error('out of bounds')] of [Layer.feature] *)
| TypeError                      (* property access on [undefined] *)
| WireError (msg : string).      (* raised inside the wire reader *)

(** Outcome of a computation.  [Fuel] is not an outcome of the program: it
    marks a loop of the embedding that was given too few iterations. *)
Inductive res (A : Type) : Type :=
| Ret (a : A) (pos : Z)
| Throw (e : exn) (pos : Z)
| Fuel.
Arguments Ret {A} a pos.
Arguments Throw {A} e pos.
Arguments Fuel {A}.

(** A computation over the shared reader: buffer and cursor in, outcome out. *)
Definition M (A : Type) : Type := list byte -> Z -> res A.

Definition ret {A} (a : A) : M A := fun _ pos => Ret a pos.

Definition bind {A B} (m : M A) (k : A -> M B) : M B :=
  fun buf pos =>
    match m buf pos with
    | Ret a pos' => k a buf pos'
    | Throw e pos' => Throw e pos'
    | Fuel => Fuel
    end.

Definition throw {A} (e : exn) : M A := fun _ pos => Throw e pos.

(** [reader.pos], [reader.pos = p] and [reader.len]. *)
Definition get_pos : M Z := fun _ pos => Ret pos pos.
Definition set_pos (p : Z) : M unit := fun _ _ => Ret tt p.
Definition len (buf : list byte) : Z := Z.of_nat (length buf).
Definition get_len : M Z := fun buf pos => Ret (len buf) pos.

Notation "x <- m ;; k" := (bind m (fun x => k))
  (at level 100, m at next level, right associativity).

(** [while (reader.pos < end) body].  Every loop of the decoder has this
    shape.  The body receives the iterations that remain, which it hands to
    the loops nested in it. *)
Fixpoint while_lt {St : Type} (fuel : nat) (end_ : Z)
    (body : nat -> St -> M St) (s : St) : M St :=
  fun buf pos =>
    if pos <? end_ then
      match fuel with
      | O => Fuel
      | S n => bind (body n s) (while_lt n end_ body) buf pos
      end
    else Ret s pos.

(** ** The wire reader

    [BinaryReader] of @protobuf-ts/runtime is a dependency of the
    repository, not part of it.  The decoder is embedded over the interface
    it consumes; the laws are the ones the reader's bounds checks give: an
    operation that returns has not moved the cursor backwards nor past the
    end of the buffer, and reading a varint consumes at least one byte. *)

(** Outcome of a reader primitive: a value or an error message, and the
    cursor. *)
Inductive rres (A : Type) : Type :=
| ROk (a : A) (pos : Z)
| RErr (msg : string) (pos : Z).
Arguments ROk {A} a pos.
Arguments RErr {A} msg pos.

Definition rd (A : Type) : Type := list byte -> Z -> rres A.

Definition lift {A} (r : rd A) : M A :=
  fun buf pos =>
    match r buf pos with
    | ROk a pos' => Ret a pos'
    | RErr msg pos' => Throw (WireError msg) pos'
    end.

(** The operation returns only after moving the cursor forward, within the
    buffer. *)
Definition advances {A} (r : rd A) : Prop :=
  forall buf pos a pos', r buf pos = ROk a pos' -> pos < pos' <= len buf.

(** The operation returns only with the cursor not moved backwards, within
    the buffer. *)
Definition bounded {A} (r : rd A) : Prop :=
  forall buf pos a pos', r buf pos = ROk a pos' -> pos <= pos' <= len buf.

Class BinaryReader : Type := {
  (* varints *)
  rd_uint32 : rd Z;
  rd_sint32 : rd Z;
  rd_int64 : rd Z;
  rd_uint64 : rd Z;
  rd_sint64 : rd Z;
  rd_bool : rd bool;
  (* [tag()] returns [fieldNo, wireType] *)
  rd_tag : rd (Z * Z);
  rd_skip : Z -> rd unit;
  rd_string : rd string;
  (* [float()] and [double()]: the value is kept as its IEEE bit pattern *)
  rd_float : rd Z;
  rd_double : rd Z;
  (* [PbLong.toNumber()], which may refuse, and [PbLong.toString()] *)
  long_toNumber : Z -> string + Z;
  long_toString : Z -> string;
}.

Class ReaderLaws (R : BinaryReader) : Prop := {
  uint32_advances : advances rd_uint32;
  uint32_range : forall buf pos v pos',
      rd_uint32 buf pos = ROk v pos' -> 0 <= v < 2 ^ 32;
  sint32_advances : advances rd_sint32;
  tag_advances : advances rd_tag;
  int64_bounded : bounded rd_int64;
  uint64_bounded : bounded rd_uint64;
  sint64_bounded : bounded rd_sint64;
  bool_bounded : bounded rd_bool;
  skip_bounded : forall w, bounded (rd_skip w);
  string_bounded : bounded rd_string;
  float_bounded : bounded rd_float;
  double_bounded : bounded rd_double;
}.

(** ** Arithmetic on numbers that hold integers

    A JavaScript number is an IEEE 754 double: a sign, a significand of 53
    bits and a power of two.  Every integer of magnitude below 2^53 is a
    double; from 2^53 on, the doubles are the integers [q * 2^e] with
    [2^52 <= q < 2^53] and [1 <= e].  The sum, difference or product of two
    doubles that hold integers is the exact integer result rounded to the
    nearest double, to the one of even significand when two are as near.
    Magnitudes of 2^1024 and more, where a double is infinite, are outside
    the embedding: with coordinates below 2^500 no number of [signedArea]
    comes near them. *)

(** The double nearest to the magnitude [a]. *)
Definition round_magnitude (a : Z) : Z :=
  if a <? 2 ^ 53 then a
  else
    let e := Z.log2 a - 52 in
    let q := a / 2 ^ e in
    let r := a mod 2 ^ e in
    let half := 2 ^ (e - 1) in
    let q' :=
      if r <? half then q
      else if half <? r then q + 1
      else if Z.even q then q else q + 1 in
    q' * 2 ^ e.

Definition round_double (z : Z) : Z := Z.sgn z * round_magnitude (Z.abs z).

(** [a + b], [a - b] and [a * b] on numbers. *)
Definition number_add (a b : Z) : Z := round_double (a + b).
Definition number_sub (a b : Z) : Z := round_double (a - b).
Definition number_mul (a b : Z) : Z := round_double (a * b).

(** ** Points and ring classification *)

Record Point : Type := mkPoint { x : Z; y : Z }.

(** [signedArea]: the loop pairs [ring[i]] with [ring[j]], where [j] is the
    previous index and starts at the last one.  The coordinates are the
    integers held in the numbers [point.x] and [point.y]. *)
Fixpoint signedArea_loop (point2 : Point) (ring : list Point) (sum : Z) : Z :=
  match ring with
  | [] => sum
  | point1 :: rest =>
      signedArea_loop point1 rest
        (number_add sum
           (number_mul (number_sub (x point2) (x point1))
                       (number_add (y point1) (y point2))))
  end.

Definition signedArea (ring : list Point) : Z :=
  signedArea_loop (List.last ring (mkPoint 0 0)) ring 0.

(** State of the loop of [classifyRings]: [polygons] and the nullable
    [polygon]. *)
Definition classify_state : Type :=
  (list (list (list Point)) * option (list (list Point)))%type.

(** [if (polygon) polygons.push(polygon)] *)
Definition push_open {A} (xs : list A) (open : option A) : list A :=
  match open with
  | Some a => xs ++ [a]
  | None => xs
  end.

Definition classify_step (st : classify_state) (ring : list Point)
    : classify_state :=
  let '(polygons, polygon) := st in
  let area := signedArea ring in
  if area =? 0 then st
  else if 0 <? area then (push_open polygons polygon, Some [ring])
  else (polygons, option_map (fun p => p ++ [ring]) polygon).

Definition classifyRings (rings : list (list Point)) : list (list (list Point)) :=
  if (length rings <=? 1)%nat then [rings]
  else
    let '(polygons, polygon) := fold_left classify_step rings ([], None) in
    push_open polygons polygon.

(** The classification in the words of the specification, to compare with
    [classifyRings]: the holes of the current polygon are the rings of
    negative area up to the next ring of positive area, rings of zero area
    being passed over.  The area is the one the code computes. *)
Fixpoint spec_holes (rings : list (list Point)) : list (list Point) :=
  match rings with
  | [] => []
  | ring :: rest =>
      if 0 <? signedArea ring then []
      else if signedArea ring <? 0 then ring :: spec_holes rest
      else spec_holes rest
  end.

(** Each ring of positive area starts a polygon made of that ring and its
    holes; a ring met outside any polygon that is not of positive area is
    discarded. *)
Fixpoint spec_polygons (rings : list (list Point)) : list (list (list Point)) :=
  match rings with
  | [] => []
  | ring :: rest =>
      if 0 <? signedArea ring then (ring :: spec_holes rest) :: spec_polygons rest
      else spec_polygons rest
  end.

(** ** Values, objects and records of the decoder *)

(** [LongType]: how 64-bit property values are surfaced. *)
Inductive LongType : Type := LongNumber | LongString | LongBigint.

(** [PropValues = string | number | boolean | bigint | null].  A number is
    kept by where it came from: a float or a double of the wire (as its bit
    pattern) or a 64-bit integer converted by [toNumber]. *)
Inductive PropValues : Type :=
| PString (s : string)
| PFloat (bits : Z)
| PDouble (bits : Z)
| PNumber (n : Z)
| PBigint (n : Z)
| PBool (b : bool)
| PNull.

(** [a[i]] on a JS array: [None] is [undefined]. *)
Definition index {A} (a : list A) (i : Z) : option A :=
  if i <? 0 then None else a !! Z.to_nat i.

(** A JS object used as a dictionary ([{}]): its own properties, and
    whether it still inherits the [__proto__] accessor of
    [Object.prototype]. *)
Record obj (V : Type) : Type := mkObj {
  own : gmap string V;
  proto_accessor : bool;
}.
Arguments mkObj {V} own proto_accessor.
Arguments own {V} o.
Arguments proto_accessor {V} o.

Definition obj_empty {V} : obj V := mkObj ∅ true.

(** [o[k] = v].  Assigning to [__proto__] goes to the inherited accessor,
    which creates no own property; it replaces the prototype when [v] is an
    object or [null], and with [null] the accessor is no longer inherited. *)
Definition obj_set {V} (is_null : V -> bool) (o : obj V) (k : string) (v : V)
    : obj V :=
  if String.eqb k "__proto__" && proto_accessor o then
    if is_null v then mkObj (own o) false else o
  else mkObj (<[k := v]> (own o)) (proto_accessor o).

(** A property name: [undefined] used as a key is the string "undefined". *)
Definition property_key (k : option string) : string :=
  match k with
  | Some s => s
  | None => "undefined"
  end.

(** A property value read from the value table: [None] is [undefined]. *)
Definition is_null_value (v : option PropValues) : bool :=
  match v with
  | Some PNull => true
  | _ => false
  end.

Record Layer : Type := mkLayer {
  layer_name : string;
  layer_version : Z;
  layer_extent : Z;
  layer_length : Z;
  featureOffsets : list Z;
  keys : list string;
  values : list PropValues;
  layer_longType : LongType;
}.

Record Feature : Type := mkFeature {
  feature_id : option string;
  feature_type : Z;
  properties : obj (option PropValues);
  geometryOffset : Z;
  feature_extent : Z;
}.

Record VectorTile : Type := mkVectorTile {
  layers : obj Layer;
  tile_longType : LongType;
}.

(** [FeatureType] and [Command] are const enums: plain numbers at run time. *)
Definition UNKNOWN : Z := 0.
Definition POINT : Z := 1.
Definition LINESTRING : Z := 2.
Definition POLYGON : Z := 3.

Definition MoveTo : Z := 1.
Definition LineTo : Z := 2.
Definition ClosePath : Z := 7.

Definition MAX_SAFE_INTEGER : Z := 2 ^ 53 - 1.
Definition MIN_SAFE_INTEGER : Z := - (2 ^ 53 - 1).

(** ** The decoder *)

Section Decoder.
Context {R : BinaryReader}.

(** [reader.uint32()] and the other reader calls, on the shared cursor. *)
Definition reader_uint32 : M Z := lift rd_uint32.
Definition reader_sint32 : M Z := lift rd_sint32.
Definition reader_int64 : M Z := lift rd_int64.
Definition reader_uint64 : M Z := lift rd_uint64.
Definition reader_sint64 : M Z := lift rd_sint64.
Definition reader_bool : M bool := lift rd_bool.
Definition reader_tag : M (Z * Z) := lift rd_tag.
Definition reader_skip (wireType : Z) : M unit := lift (rd_skip wireType).
Definition reader_string : M string := lift rd_string.
Definition reader_float : M Z := lift rd_float.
Definition reader_double : M Z := lift rd_double.

(** *** Layer *)

Definition convertLong (longType : LongType) (long : Z) : M PropValues :=
  match longType with
  | LongNumber =>
      match long_toNumber long with
      | inl msg => throw (WireError msg)
      | inr n => ret (PNumber n)
      end
  | LongString => ret (PString (long_toString long))
  | LongBigint => ret (PBigint long)
  end.

Definition decodeValue_body (longType : LongType) (_ : nat) (value : PropValues)
    : M PropValues :=
  t <- reader_tag ;;
  let fieldId := fst t in
  if fieldId =? 1 then s <- reader_string ;; ret (PString s)
  else if fieldId =? 2 then v <- reader_float ;; ret (PFloat v)
  else if fieldId =? 3 then v <- reader_double ;; ret (PDouble v)
  else if fieldId =? 4 then v <- reader_int64 ;; convertLong longType v
  else if fieldId =? 5 then v <- reader_uint64 ;; convertLong longType v
  else if fieldId =? 6 then v <- reader_sint64 ;; convertLong longType v
  else if fieldId =? 7 then b <- reader_bool ;; ret (PBool b)
  else ret PNull.

Definition decodeValue (longType : LongType) (fuel : nat) : M PropValues :=
  n <- reader_uint32 ;;
  p <- get_pos ;;
  let end_ := n + p in
  while_lt fuel end_ (decodeValue_body longType) PNull.

Definition set_version (l : Layer) (v : Z) : Layer :=
  mkLayer (layer_name l) v (layer_extent l) (layer_length l)
    (featureOffsets l) (keys l) (values l) (layer_longType l).
Definition set_name (l : Layer) (s : string) : Layer :=
  mkLayer s (layer_version l) (layer_extent l) (layer_length l)
    (featureOffsets l) (keys l) (values l) (layer_longType l).
Definition set_extent (l : Layer) (v : Z) : Layer :=
  mkLayer (layer_name l) (layer_version l) v (layer_length l)
    (featureOffsets l) (keys l) (values l) (layer_longType l).
Definition set_length (l : Layer) (n : Z) : Layer :=
  mkLayer (layer_name l) (layer_version l) (layer_extent l) n
    (featureOffsets l) (keys l) (values l) (layer_longType l).
Definition push_featureOffset (l : Layer) (p : Z) : Layer :=
  mkLayer (layer_name l) (layer_version l) (layer_extent l) (layer_length l)
    (featureOffsets l ++ [p]) (keys l) (values l) (layer_longType l).
Definition push_key (l : Layer) (s : string) : Layer :=
  mkLayer (layer_name l) (layer_version l) (layer_extent l) (layer_length l)
    (featureOffsets l) (keys l ++ [s]) (values l) (layer_longType l).
Definition push_value (l : Layer) (v : PropValues) : Layer :=
  mkLayer (layer_name l) (layer_version l) (layer_extent l) (layer_length l)
    (featureOffsets l) (keys l) (values l ++ [v]) (layer_longType l).

(** One iteration of the loop of the [Layer] constructor. *)
Definition Layer_body (longType : LongType) (fuel : nat) (l : Layer) : M Layer :=
  t <- reader_tag ;;
  let '(fieldId, wireType) := t in
  if fieldId =? 15 then v <- reader_uint32 ;; ret (set_version l v)
  else if fieldId =? 1 then s <- reader_string ;; ret (set_name l s)
  else if fieldId =? 5 then v <- reader_uint32 ;; ret (set_extent l v)
  else if fieldId =? 2 then
    p <- get_pos ;;
    _ <- reader_skip wireType ;;
    ret (push_featureOffset l p)
  else if fieldId =? 3 then s <- reader_string ;; ret (push_key l s)
  else if fieldId =? 4 then v <- decodeValue longType fuel ;; ret (push_value l v)
  else ret l.

(** The field initialisers of [Layer]; [length] is assigned after the loop. *)
Definition Layer_init (longType : LongType) : Layer :=
  mkLayer "" 0 0 0 [] [] [] longType.

(** [new Layer(reader, end, longType)] *)
Definition Layer_new (fuel : nat) (end_ : Z) (longType : LongType) : M Layer :=
  l <- while_lt fuel end_ (Layer_body longType) (Layer_init longType) ;;
  ret (set_length l (Z.of_nat (length (featureOffsets l)))).

(** *** Feature *)

Definition set_id (f : Feature) (s : string) : Feature :=
  mkFeature (Some s) (feature_type f) (properties f) (geometryOffset f)
    (feature_extent f).
Definition set_type (f : Feature) (t : Z) : Feature :=
  mkFeature (feature_id f) t (properties f) (geometryOffset f)
    (feature_extent f).
Definition set_properties (f : Feature) (o : obj (option PropValues)) : Feature :=
  mkFeature (feature_id f) (feature_type f) o (geometryOffset f)
    (feature_extent f).
Definition set_geometryOffset (f : Feature) (p : Z) : Feature :=
  mkFeature (feature_id f) (feature_type f) (properties f) p
    (feature_extent f).

(** One key/value index pair of the packed field 2. *)
Definition Feature_tags_body (keys : list string) (values : list PropValues)
    (_ : nat) (props : obj (option PropValues)) : M (obj (option PropValues)) :=
  k <- reader_uint32 ;;
  let key := index keys k in
  v <- reader_uint32 ;;
  let value := index values v in
  ret (obj_set is_null_value props (property_key key) value).

(** One iteration of the loop of the [Feature] constructor. *)
Definition Feature_body (keys : list string) (values : list PropValues)
    (fuel : nat) (f : Feature) : M Feature :=
  t <- reader_tag ;;
  let '(fieldId, wireType) := t in
  if fieldId =? 1 then v <- reader_int64 ;; ret (set_id f (long_toString v))
  else if fieldId =? 2 then
    n <- reader_uint32 ;;
    p <- get_pos ;;
    let end_ := n + p in
    props <- while_lt fuel end_ (Feature_tags_body keys values) (properties f) ;;
    ret (set_properties f props)
  else if fieldId =? 3 then v <- reader_uint32 ;; ret (set_type f v)
  else if fieldId =? 4 then
    p <- get_pos ;;
    _ <- reader_skip wireType ;;
    ret (set_geometryOffset f p)
  else ret f.

Definition Feature_init (extent : Z) : Feature :=
  mkFeature None UNKNOWN obj_empty 0 extent.

(** [new Feature(reader, end, keys, values, extent)] *)
Definition Feature_new (fuel : nat) (end_ : Z) (keys : list string)
    (values : list PropValues) (extent : Z) : M Feature :=
  while_lt fuel end_ (Feature_body keys values) (Feature_init extent).

(** The feature sub-message whose length prefix is at [offset]. *)
Definition Feature_at (fuel : nat) (l : Layer) (offset : Z) : M Feature :=
  _ <- set_pos offset ;;
  n <- reader_uint32 ;;
  p <- get_pos ;;
  let end_ := n + p in
  Feature_new fuel end_ (keys l) (values l) (layer_extent l).

(** [Layer.feature(index)], for an integer [index]. *)
Definition feature (fuel : nat) (l : Layer) (index_ : Z) : M Feature :=
  if (index_ <? 0) || (index_ >=? Z.of_nat (length (featureOffsets l)))
  then throw OutOfBounds
  else Feature_at fuel l (nth (Z.to_nat index_) (featureOffsets l) 0).

(** *** VectorTile *)

Definition VectorTile_body (longType : LongType) (fuel : nat) (ls : obj Layer)
    : M (obj Layer) :=
  _ <- reader_uint32 ;;
  n <- reader_uint32 ;;
  p <- get_pos ;;
  layer <- Layer_new fuel (n + p) longType ;;
  ret (if layer_length layer =? 0 then ls
       else obj_set (fun _ => false) ls (layer_name layer) layer).

(** [new VectorTile(bytes, longType)] *)
Definition VectorTile_new (fuel : nat) (bytes : list byte) (longType : LongType)
    : res VectorTile :=
  (end_ <- get_len ;;
   ls <- while_lt fuel end_ (VectorTile_body longType) obj_empty ;;
   ret (mkVectorTile ls longType)) bytes 0.

(** *** Geometry *)

Record geometry_state : Type := mkGeometry {
  g_command : Z;
  g_length : Z;
  g_x : Z;
  g_y : Z;
  g_lines : list (list Point);
  g_line : option (list Point);
}.

(** One iteration of the loop of [loadGeometry]. *)
Definition loadGeometry_body (_ : nat) (s : geometry_state) : M geometry_state :=
  cl <- (if g_length s <=? 0 then
           commandLen <- reader_uint32 ;;
           ret (Z.land commandLen 7, Z.shiftr commandLen 3)
         else ret (g_command s, g_length s)) ;;
  let '(command, length0) := cl in
  let length_ := length0 - 1 in
  if (command =? MoveTo) || (command =? LineTo) then
    dx <- reader_sint32 ;;
    let x_ := g_x s + dx in
    dy <- reader_sint32 ;;
    let y_ := g_y s + dy in
    let '(lines_, line_) :=
      if command =? MoveTo then (push_open (g_lines s) (g_line s), Some [])
      else (g_lines s, g_line s) in
    ret (mkGeometry command length_ x_ y_ lines_
           (option_map (fun l => l ++ [mkPoint x_ y_]) line_))
  else if command =? ClosePath then
    match g_line s with
    | Some l =>
        match l with
        | p0 :: _ =>
            ret (mkGeometry command length_ (g_x s) (g_y s) (g_lines s)
                   (Some (l ++ [mkPoint (x p0) (y p0)])))
        | [] => throw TypeError
        end
    | None => ret (mkGeometry command length_ (g_x s) (g_y s) (g_lines s) None)
    end
  else ret (mkGeometry command length_ (g_x s) (g_y s) (g_lines s) (g_line s)).

(** [Feature.loadGeometry()] *)
Definition loadGeometry (fuel : nat) (f : Feature) : M (list (list Point)) :=
  _ <- set_pos (geometryOffset f) ;;
  n <- reader_uint32 ;;
  p <- get_pos ;;
  let end_ := n + p in
  s <- while_lt fuel end_ loadGeometry_body (mkGeometry 1 0 0 0 [] None) ;;
  ret (push_open (g_lines s) (g_line s)).

Record bbox_state : Type := mkBbox {
  b_command : Z;
  b_count : Z;
  b_x : Z;
  b_y : Z;
  xMin : Z;
  xMax : Z;
  yMin : Z;
  yMax : Z;
}.

(** One iteration of the loop of [bbox]. *)
Definition bbox_body (_ : nat) (s : bbox_state) : M bbox_state :=
  cc <- (if b_count s <=? 0 then
           commandInteger <- reader_uint32 ;;
           ret (Z.land commandInteger 7, Z.shiftr commandInteger 3)
         else ret (b_command s, b_count s)) ;;
  let '(command, count0) := cc in
  let count := count0 - 1 in
  if (command =? MoveTo) || (command =? LineTo) then
    dx <- reader_sint32 ;;
    let x_ := b_x s + dx in
    dy <- reader_sint32 ;;
    let y_ := b_y s + dy in
    ret (mkBbox command count x_ y_
           (Z.min x_ (xMin s)) (Z.max x_ (xMax s))
           (Z.min y_ (yMin s)) (Z.max y_ (yMax s)))
  else
    ret (mkBbox command count (b_x s) (b_y s)
           (xMin s) (xMax s) (yMin s) (yMax s)).

(** [Feature.bbox()], as [[xMin, yMin, xMax, yMax]]. *)
Definition bbox (fuel : nat) (f : Feature) : M (Z * Z * Z * Z) :=
  _ <- set_pos (geometryOffset f) ;;
  n <- reader_uint32 ;;
  p <- get_pos ;;
  let end_ := n + p in
  s <- while_lt fuel end_ bbox_body
         (mkBbox 0 0 0 0
            MAX_SAFE_INTEGER MIN_SAFE_INTEGER MAX_SAFE_INTEGER MIN_SAFE_INTEGER) ;;
  ret (xMin s, yMin s, xMax s, yMax s).

(** [asPoints], [asLines], [asPolygons]: [None] is [null].  [points[0]] of
    an empty line would be [undefined]. *)
Definition asPoints (fuel : nat) (f : Feature) : M (option (list (option Point))) :=
  lines_ <- loadGeometry fuel f ;;
  let points := List.map (fun points => index points 0) lines_ in
  ret (if feature_type f =? POINT then Some points else None).

Definition asLines (fuel : nat) (f : Feature) : M (option (list (list Point))) :=
  if feature_type f =? LINESTRING then
    lines_ <- loadGeometry fuel f ;; ret (Some lines_)
  else ret None.

Definition asPolygons (fuel : nat) (f : Feature)
    : M (option (list (list (list Point)))) :=
  if feature_type f =? POLYGON then
    lines_ <- loadGeometry fuel f ;; ret (Some (classifyRings lines_))
  else ret None.

End Decoder.

(** ** GeoJSON

    The projection of a point is floating point arithmetic ([Math.pow],
    [Math.exp], [Math.atan]); it is a parameter of the embedding, together
    with the type of the numbers it works on. *)

Section GeoJSON.
Context {R : BinaryReader}.
Variable number : Type.
(** [project_point extent x y zoom point] is the [[lng, lat]] pair that the
    arrow function [project] computes for one point. *)
Variable project_point : Z -> number -> number -> number -> Point -> number * number.

(** Coordinates of a GeoJSON geometry: arrays nested to any depth. *)
Inductive coords : Type :=
| CPair (lng lat : number)
| CArray (cs : list coords).

Record GeoJSON : Type := mkGeoJSON {
  geometry_type : string;
  geometry_coordinates : coords;
  geojson_properties : obj (option PropValues);
  geojson_id : option string;
}.

Definition project (extent : Z) (x_ y_ zoom : number) (points : list Point)
    : list coords :=
  List.map (fun point =>
              let '(lng, lat) := project_point extent x_ y_ zoom point in
              CPair lng lat) points.

(** The points of [asPoints] when none of them is [undefined]. *)
Fixpoint defined_points (points : list (option Point)) : option (list Point) :=
  match points with
  | [] => Some []
  | Some p :: rest => option_map (cons p) (defined_points rest)
  | None :: _ => None
  end.

(** The [switch] of [toGeoJSON]: the geometry type name and the coordinates;
    [None] is the [coordinates] variable left [undefined]. *)
Definition toGeoJSON_switch (fuel : nat) (f : Feature) (x_ y_ zoom : number)
    : M (string * option (list coords)) :=
  let extent := feature_extent f in
  if feature_type f =? POINT then
    points <- asPoints fuel f ;;
    match points with
    | Some points =>
        match defined_points points with
        | Some ps => ret ("Point"%string, Some (project extent x_ y_ zoom ps))
        | None => throw TypeError          (* [point.y] of [undefined] *)
        end
    | None => throw TypeError
    end
  else if feature_type f =? LINESTRING then
    lines_ <- asLines fuel f ;;
    match lines_ with
    | Some lines_ =>
        ret ("LineString"%string,
             Some (List.map (fun line => CArray (project extent x_ y_ zoom line))
                     lines_))
    | None => throw TypeError
    end
  else if feature_type f =? 3 then
    polygons <- asPolygons fuel f ;;
    match polygons with
    | Some polygons =>
        ret ("Polygon"%string,
             Some (List.map (fun rings =>
                               CArray (List.map
                                         (fun ring =>
                                            CArray (project extent x_ y_ zoom ring))
                                         rings))
                     polygons))
    | None => throw TypeError
    end
  else ret (""%string, None).

(** [Feature.toGeoJSON(x, y, zoom)] *)
Definition toGeoJSON (fuel : nat) (f : Feature) (x_ y_ zoom : number) : M GeoJSON :=
  tc <- toGeoJSON_switch fuel f x_ y_ zoom ;;
  let '(type, coordinates) := tc in
  match coordinates with
  | None => throw TypeError          (* [coordinates.length] of [undefined] *)
  | Some cs =>
      let '(type, coordinates) :=
        match cs with
        | [c] => (type, c)
        | _ => (("Multi" ++ type)%string, CArray cs)
        end in
      ret (mkGeoJSON type coordinates (properties f) (feature_id f))
  end.

End GeoJSON.

(** ** A wire reader *)

(** The sources import the reader and do not contain it.  The module below
    is one reader for the interface, used to run the decoder on concrete
    tiles: the protobuf wire format with the bounds checks of the
    reader. *)

Module Wire.

(** [buf[pos]] as it enters the bit operations: [undefined] acts as 0. *)
Definition byte_at (buf : list byte) (pos : Z) : Z :=
  match index buf pos with
  | Some b => Z.of_N (Byte.to_N b)
  | None => 0
  end.

(** [assertBounds()] *)
Definition assertBounds {A} (a : A) : rd A :=
  fun buf pos => if pos >? len buf then RErr "premature EOF" pos else ROk a pos.

(** Base-128 groups, least significant first, at most [n] bytes: the value
    and the position after the last byte read; [None] if the [n]-th byte
    still has its continuation bit. *)
Fixpoint varint (n : nat) (buf : list byte) (pos shift acc : Z) : option (Z * Z) :=
  match n with
  | O => None
  | S n' =>
      let b := byte_at buf pos in
      let acc' := Z.lor acc (Z.shiftl (Z.land b 127) shift) in
      if Z.land b 128 =? 0 then Some (acc', pos + 1)
      else varint n' buf (pos + 1) (shift + 7) acc'
  end.

Definition read_varint (bits : Z) : rd Z :=
  fun buf pos =>
    match varint 10 buf pos 0 0 with
    | None => RErr "invalid varint" (pos + 10)
    | Some (v, pos') => assertBounds (v mod 2 ^ bits) buf pos'
    end.

Definition rmap {A B} (f : A -> B) (r : rd A) : rd B :=
  fun buf pos =>
    match r buf pos with
    | ROk a pos' => ROk (f a) pos'
    | RErr msg pos' => RErr msg pos'
    end.

Definition uint32 : rd Z := read_varint 32.
Definition uint64 : rd Z := read_varint 64.

(** Zigzag decoding, [(n >>> 1) ^ -(n & 1)]. *)
Definition unzigzag (n : Z) : Z :=
  if Z.testbit n 0 then - Z.shiftr n 1 - 1 else Z.shiftr n 1.

Definition sint32 : rd Z := rmap unzigzag uint32.
Definition sint64 : rd Z := rmap unzigzag uint64.
Definition int64 : rd Z :=
  rmap (fun v => if v <? 2 ^ 63 then v else v - 2 ^ 64) uint64.
Definition bool : rd Datatypes.bool := rmap (fun v => negb (v =? 0)) uint64.

Definition tag : rd (Z * Z) :=
  fun buf pos =>
    match uint32 buf pos with
    | ROk t pos' =>
        let fieldNo := Z.shiftr t 3 in
        let wireType := Z.land t 7 in
        if (fieldNo <=? 0) || (5 <? wireType) then RErr "illegal tag" pos'
        else ROk (fieldNo, wireType) pos'
    | RErr msg pos' => RErr msg pos'
    end.

(** [while (buf[pos++] & 0x80)], with [n] the bytes of the buffer: the loop
    stops at the latest on the first byte past the end. *)
Fixpoint skip_varint (n : nat) (buf : list byte) (pos : Z) : Z :=
  match n with
  | O => pos + 1
  | S n' =>
      if Z.land (byte_at buf pos) 128 =? 0 then pos + 1
      else skip_varint n' buf (pos + 1)
  end.

(** [skip] of a wire type other than a group, before its bounds check. *)
Definition skip_plain (wireType : Z) : rd unit :=
  fun buf pos =>
    if wireType =? 0 then ROk tt (skip_varint (length buf) buf pos)
    else if wireType =? 1 then ROk tt (pos + 8)
    else if wireType =? 5 then ROk tt (pos + 4)
    else if wireType =? 2 then
      match uint32 buf pos with
      | ROk n pos' => ROk tt (pos' + n)
      | RErr msg pos' => RErr msg pos'
      end
    else RErr "invalid wire type" pos.

(** [skip] inside [depth] open groups: read tags, skipping each field, until
    the end-group tag of the outermost one.  Every round reads a tag, so the
    [n] rounds allowed are never used up when [n] is above the buffer
    length. *)
Fixpoint skip_group (n : nat) (depth : nat) (buf : list byte) (pos : Z) : rres unit :=
  match depth with
  | O => ROk tt pos
  | S d =>
      match n with
      | O => RErr "premature EOF" pos
      | S n' =>
          match tag buf pos with
          | ROk (_, t) pos' =>
              if t =? 4 then skip_group n' d buf pos'
              else if t =? 3 then skip_group n' (S depth) buf pos'
              else
                match skip_plain t buf pos' with
                | ROk _ pos'' =>
                    if pos'' >? len buf then RErr "premature EOF" pos''
                    else skip_group n' depth buf pos''
                | RErr msg pos'' => RErr msg pos''
                end
          | RErr msg pos' => RErr msg pos'
          end
      end
  end.

Definition skip (wireType : Z) : rd unit :=
  fun buf pos =>
    if wireType =? 3 then skip_group (S (length buf)) 1 buf pos
    else
      match skip_plain wireType buf pos with
      | ROk _ pos' => assertBounds tt buf pos'
      | RErr msg pos' => RErr msg pos'
      end.

(** The [n] bytes from [pos], when they are all inside the buffer. *)
Definition bytes_at (buf : list byte) (pos n : Z) : option (list byte) :=
  if (pos <? 0) || (n <? 0) || (len buf <? pos + n) then None
  else Some (firstn (Z.to_nat n) (skipn (Z.to_nat pos) buf)).

(** Well-formed UTF-8, as a decoder in fatal mode accepts it. *)
Fixpoint utf8_valid (fuel : nat) (bs : list Z) : Datatypes.bool :=
  let cont b := (128 <=? b) && (b <=? 191) in
  match fuel with
  | O => false
  | S fuel' =>
      match bs with
      | [] => true
      | b0 :: r0 =>
          if b0 <=? 127 then utf8_valid fuel' r0
          else
            match r0 with
            | b1 :: r1 =>
                if (194 <=? b0) && (b0 <=? 223) then cont b1 && utf8_valid fuel' r1
                else
                  match r1 with
                  | b2 :: r2 =>
                      if (224 <=? b0) && (b0 <=? 239) then
                        (if b0 =? 224 then (160 <=? b1) && (b1 <=? 191)
                         else if b0 =? 237 then (128 <=? b1) && (b1 <=? 159)
                         else cont b1)
                        && cont b2 && utf8_valid fuel' r2
                      else
                        match r2 with
                        | b3 :: r3 =>
                            (240 <=? b0) && (b0 <=? 244) &&
                            (if b0 =? 240 then (144 <=? b1) && (b1 <=? 191)
                             else if b0 =? 244 then (128 <=? b1) && (b1 <=? 143)
                             else cont b1)
                            && cont b2 && cont b3 && utf8_valid fuel' r3
                        | [] => false
                        end
                  | [] => false
                  end
            | [] => false
            end
      end
  end.

(** [string()]: a length prefix, then that many bytes, which must be
    well-formed UTF-8; the string is kept as those bytes. *)
Definition string : rd String.string :=
  fun buf pos =>
    match uint32 buf pos with
    | ROk n pos' =>
        match bytes_at buf pos' n with
        | Some bs =>
            if utf8_valid (S (length bs)) (List.map (fun b => Z.of_N (Byte.to_N b)) bs)
            then ROk (string_of_list_byte bs) (pos' + n)
            else RErr "invalid UTF-8" (pos' + n)
        | None => RErr "premature EOF" (pos' + n)
        end
    | RErr msg pos' => RErr msg pos'
    end.

(** Little-endian value of a byte string. *)
Fixpoint le_value (bs : list byte) : Z :=
  match bs with
  | [] => 0
  | b :: rest => Z.of_N (Byte.to_N b) + 256 * le_value rest
  end.

(** [float()] and [double()]: [n] bytes, kept as their bit pattern. *)
Definition fixed (n : Z) : rd Z :=
  fun buf pos =>
    match bytes_at buf pos n with
    | Some bs => ROk (le_value bs) (pos + n)
    | None => RErr "offset is outside the bounds of the DataView" (pos + n)
    end.

Definition toNumber (long : Z) : String.string + Z :=
  if (- (2 ^ 53 - 1) <=? long) && (long <=? 2 ^ 53 - 1) then inr long
  else inl "cannot convert to safe number"%string.

Definition toString (long : Z) : String.string :=
  DecimalString.NilZero.string_of_int (Z.to_int long).

(** Modelled from the spec: the wire reader is the external [BinaryReader]
    of @protobuf-ts/runtime, which the sources import but do not contain.
    This instance follows the protobuf wire format the spec names (tags,
    varints, zigzag, length-delimited fields, 64-bit conversions) with the
    reader's checks: a read that ran past the end of the buffer raises, a
    varint longer than ten bytes raises, and a tag with field number 0 or a
    wire type above 5 raises. *)
#[export] Instance reader : BinaryReader := {|
  rd_uint32 := uint32;
  rd_sint32 := sint32;
  rd_int64 := int64;
  rd_uint64 := uint64;
  rd_sint64 := sint64;
  rd_bool := bool;
  rd_tag := tag;
  rd_skip := skip;
  rd_string := string;
  rd_float := fixed 4;
  rd_double := fixed 8;
  long_toNumber := toNumber;
  long_toString := toString;
|}.

End Wire.

(** ** Interleaved calls on the shared reader *)

(** The calls of the query API that move the shared cursor. *)
Inductive call : Type :=
| CallFeature (l : Layer) (index_ : Z)
| CallLoadGeometry (f : Feature)
| CallBbox (f : Feature)
| CallAsPoints (f : Feature)
| CallAsLines (f : Feature)
| CallAsPolygons (f : Feature).

(** Where a call leaves the cursor, whether it returned or raised. *)
Definition cursor_after {A} (r : res A) (pos : Z) : Z :=
  match r with
  | Ret _ pos' => pos'
  | Throw _ pos' => pos'
  | Fuel => pos
  end.

Definition run_call {R : BinaryReader} (fuel : nat) (c : call) (buf : list byte)
    (pos : Z) : Z :=
  match c with
  | CallFeature l index_ => cursor_after (feature fuel l index_ buf pos) pos
  | CallLoadGeometry f => cursor_after (loadGeometry fuel f buf pos) pos
  | CallBbox f => cursor_after (bbox fuel f buf pos) pos
  | CallAsPoints f => cursor_after (asPoints fuel f buf pos) pos
  | CallAsLines f => cursor_after (asLines fuel f buf pos) pos
  | CallAsPolygons f => cursor_after (asPolygons fuel f buf pos) pos
  end.

Definition run_calls {R : BinaryReader} (fuel : nat) (calls : list call)
    (buf : list byte) (pos : Z) : Z :=
  fold_left (fun p c => run_call fuel c buf p) calls pos.

(** The call returned a value other than [null]. *)
Definition non_null {A} (r : res (option A)) : Prop :=
  exists a pos, r = Ret (Some a) pos.

(** ** Progress of the command loops *)

(** What one iteration of a command loop ([loadGeometry], [bbox]) does to
    the cursor and to the repeat count: either the cursor moved forward, or
    it stayed and a positive count went down by one.  The count is never
    raised to 2^29 or above. *)
Definition command_progress (buf : list byte) (pos count pos' count' : Z) : Prop :=
  -1 <= count' < Z.max (2 ^ 29 - 1) count
  /\ (pos < pos' <= len buf \/ (pos' = pos /\ 0 < count /\ count' = count - 1)).

(** The measure of a command loop: what is left of the buffer, counted in
    command integers of the largest repeat count, plus the pending count. *)
Definition command_measure (buf : list byte) (count pos : Z) : Z :=
  (len buf - pos) * 2 ^ 29 + Z.max 0 count.

(** ** Predicates on computations and loop states *)

(** [hoare total m buf pos Q]: if [m], run at [pos], returns, then [Q] holds
    of the value and the cursor; and with [total], [m] was given enough
    iterations to finish. *)
Definition hoare {A} (total : bool) (m : M A) (buf : list byte) (pos : Z)
    (Q : A -> Z -> Prop) : Prop :=
  match m buf pos with
  | Ret a pos' => Q a pos'
  | Throw _ _ => True
  | Fuel => total = false
  end.

(** The iterations a loop at [pos] may need when each one moves the cursor
    forward inside the buffer; nothing is asked of a partial run. *)
Definition enough (total : bool) (buf : list byte) (n : nat) (pos : Z) : Prop :=
  total = true -> len buf - pos <= Z.of_nat n.

(** A computation indexed by the iterations it is allowed has the same
    outcome with more of them, once it has enough to finish. *)
Definition fuel_stable {A} (m : nat -> M A) : Prop :=
  forall n n' buf pos,
    (n <= n')%nat -> m n buf pos <> Fuel -> m n' buf pos = m n buf pos.

(** The computation raises nothing but errors of the wire reader. *)
Definition wire_only {A} (m : M A) : Prop :=
  forall buf pos e pos', m buf pos = Throw e pos' -> exists msg, e = WireError msg.

(** A polygon made of a ring of positive area followed by rings of negative
    area. *)
Definition outer_then_holes (polygon : list (list Point)) : Prop :=
  match polygon with
  | [] => False
  | outer :: holes =>
      0 < signedArea outer /\ Forall (fun ring => signedArea ring < 0) holes
  end.

(** The rings from the first one of positive area on. *)
Fixpoint from_first_outer (rings : list (list Point)) : list (list Point) :=
  match rings with
  | [] => []
  | ring :: rest =>
      if 0 <? signedArea ring then rings else from_first_outer rest
  end.

(** Rings of the loop state all have a nonzero area. *)
Definition nonzero_state (st : classify_state) : Prop :=
  (forall (polygon : list (list Point)) (ring : list Point),
      In polygon (fst st) -> In ring polygon -> signedArea ring <> 0)
  /\ (forall (polygon : list (list Point)) (ring : list Point),
        snd st = Some polygon -> In ring polygon -> signedArea ring <> 0).

(** ** Concrete tiles *)

Module Tiles.

(** A layer named "a" (version 2, extent 4096, key "k", value "v") with one
    POINT feature: id 5, the tag pair (0, 0), geometry MoveTo(25, 17). *)
Definition point_tile : list byte :=
  [x1a; x1f; x78; x02; x0a; x01; x61; x12; x0d;
   x08; x05; x12; x02; x00; x00; x18; x01; x22; x03; x09; x32; x22;
   x1a; x01; x6b; x22; x03; x0a; x01; x76; x28; x80; x20].

(** A layer with no key and no value whose only feature carries the tag
    pair (0, 0). *)
Definition dangling_tags_tile : list byte :=
  [x1a; x06; x12; x04; x12; x02; x00; x00].

(** A layer whose only feature announces a geometry type (field 3) and ends
    there, at the end of the buffer. *)
Definition truncated_feature_tile : list byte :=
  [x1a; x03; x12; x01; x18].

(** A layer whose only feature has the geometry ClosePath x2, ClosePath x1. *)
Definition closepath_tile : list byte :=
  [x1a; x06; x12; x04; x22; x02; x17; x0f].

End Tiles.

(** ** Notions used by the further properties *)

(** The summand of [signedArea] for [point2 = ring[j]], [point1 = ring[i]]. *)
Definition area_term (point2 point1 : Point) : Z :=
  (x point2 - x point1) * (y point1 + y point2).

(** The summands along a path that starts at [prev]. *)
Fixpoint path_sum (prev : Point) (ring : list Point) : Z :=
  match ring with
  | [] => 0
  | p :: rest => area_term prev p + path_sum p rest
  end.

(** The sum of [signedArea] in exact integers. *)
Definition shoelace (ring : list Point) : Z :=
  path_sum (List.last ring (mkPoint 0 0)) ring.

(** Every coordinate of the ring has a magnitude of at most [B]. *)
Definition within (B : Z) (ring : list Point) : Prop :=
  Forall (fun p => Z.abs (x p) <= B /\ Z.abs (y p) <= B) ring.

(** A point moved by [(dx, dy)]. *)
Definition translate (dx dy : Z) (p : Point) : Point :=
  mkPoint (x p + dx) (y p + dy).

(** A point within the bounds [[xMin, yMin, xMax, yMax]]. *)
Definition inside (box : Z * Z * Z * Z) (p : Point) : Prop :=
  let '(x_min, y_min, x_max, y_max) := box in
  x_min <= x p <= x_max /\ y_min <= y p <= y_max.

(** The bounds held by the state of the loop of [bbox]. *)
Definition box_of (b : bbox_state) : Z * Z * Z * Z :=
  (xMin b, yMin b, xMax b, yMax b).

(** No line of the state of the loop of [loadGeometry] is empty. *)
Definition lines_nonempty (s : geometry_state) : Prop :=
  Forall (fun l => l <> []) (g_lines s)
  /\ (forall l, g_line s = Some l -> l <> []).

(** The states of the two command loops after the same iterations: same
    pending count, same command while a count is pending, same running
    coordinates, and every point kept by [loadGeometry] within the bounds of
    [bbox]. *)
Definition in_step (s : geometry_state) (b : bbox_state) : Prop :=
  g_length s = b_count b
  /\ (0 < g_length s -> g_command s = b_command b)
  /\ g_x s = b_x b /\ g_y s = b_y b
  /\ Forall (Forall (inside (box_of b))) (g_lines s)
  /\ (forall l, g_line s = Some l -> Forall (inside (box_of b)) l).

(** Two outcomes that agree: both return, at the same cursor, values
    related by [Q]; or both raise the same exception at the same cursor; or
    both lack iterations. *)
Definition agree {A B} (Q : A -> B -> Prop) (r1 : res A) (r2 : res B) : Prop :=
  match r1, r2 with
  | Ret a p1, Ret b p2 => p1 = p2 /\ Q a b
  | Throw e1 p1, Throw e2 p2 => e1 = e2 /\ p1 = p2
  | Fuel, Fuel => True
  | _, _ => False
  end.

(** The cursor at the start of each iteration of a loop: for the loop of the
    [Feature] constructor, the positions of the tags of the fields it
    visits. *)
Fixpoint while_starts {St : Type} (fuel : nat) (end_ : Z)
    (body : nat -> St -> M St) (s : St) (buf : list byte) (pos : Z) : list Z :=
  if pos <? end_ then
    match fuel with
    | O => []
    | S n =>
        pos :: match body n s buf pos with
               | Ret s' pos' => while_starts n end_ body s' buf pos'
               | _ => []
               end
    end
  else [].

(** The tags that the [Feature] constructor reads for the feature at
    [index_] of the layer. *)
Definition feature_fields {R : BinaryReader} (fuel : nat) (l : Layer) (index_ : Z)
    (buf : list byte) : list Z :=
  match rd_uint32 buf (nth (Z.to_nat index_) (featureOffsets l) 0) with
  | ROk n p =>
      while_starts fuel (n + p) (Feature_body (keys l) (values l))
        (Feature_init (layer_extent l)) buf p
  | RErr _ _ => []
  end.

(** The geometry offset after the field whose tag is at [p]: the position
    that follows the tag when the field is numbered 4, and [offset] as it
    was otherwise. *)
Definition geometry_field {R : BinaryReader} (buf : list byte) (offset p : Z) : Z :=
  match rd_tag buf p with
  | ROk (fieldId, _) q => if fieldId =? 4 then q else offset
  | RErr _ _ => offset
  end.

(** A property value that is [undefined] or an entry of the value table,
    under a name that is "undefined" or an entry of the key table. *)
Definition from_tables (keys : list string) (values : list PropValues)
    (k : string) (v : option PropValues) : Prop :=
  (In k keys \/ k = "undefined"%string)
  /\ (v = None \/ exists pv, v = Some pv /\ In pv values).

(** Bounds that are the ones [bbox] starts from, or that are ordered. *)
Definition box_shape (box : Z * Z * Z * Z) : Prop :=
  box = (MAX_SAFE_INTEGER, MAX_SAFE_INTEGER, MIN_SAFE_INTEGER, MIN_SAFE_INTEGER)
  \/ (let '(x_min, y_min, x_max, y_max) := box in x_min <= x_max /\ y_min <= y_max).

(** The name of a GeoJSON geometry made of [n] parts. *)
Definition geometry_name (single : string) (n : nat) : string :=
  if (n =? 1)%nat then single else ("Multi" ++ single)%string.

(** * Properties *)

(** ** Ring classification *)

Section RingClassification.
Implicit Types (ring : list Point) (rings polygon : list (list Point)).
Implicit Types (polygons : list (list (list Point))).

Lemma classify_step_nonzero st ring :
  nonzero_state st -> nonzero_state (classify_step st ring).
Proof.
  destruct st as [polygons polygon]. intros [Hps Hp]. unfold classify_step.
  destruct (Z.eqb_spec (signedArea ring) 0) as [Hz | Hz]; [now split |].
  destruct (Z.ltb_spec 0 (signedArea ring)); split; cbn [fst snd] in *.
  - intros pg r Hin Hr. destruct polygon as [p |]; cbn in Hin.
    + apply in_app_or in Hin as [Hin | [-> | []]]; eauto.
    + eauto.
  - intros pg r [= <-] [<- | []]. exact Hz.
  - exact Hps.
  - intros pg r Heq Hr. destruct polygon as [p |]; cbn in Heq; [| discriminate].
    injection Heq as <-. apply in_app_or in Hr as [Hr | [<- | []]]; eauto.
Qed.

Lemma classify_loop_nonzero rings st :
  nonzero_state st -> nonzero_state (fold_left classify_step rings st).
Proof.
  revert st. induction rings as [| ring rings IH]; intros st Hst; cbn; [exact Hst |].
  apply IH, classify_step_nonzero, Hst.
Qed.

(** The loop from a state with an open polygon, and from a state without. *)
Lemma classify_loop_open rings : forall polygons polygon,
  (let '(ps, o) := fold_left classify_step rings (polygons, Some polygon) in
   push_open ps o)
  = polygons ++ (polygon ++ spec_holes rings) :: spec_polygons rings.
Proof.
  induction rings as [| ring rings IH]; intros polygons polygon; cbn.
  - now rewrite app_nil_r.
  - destruct (Z.eqb_spec (signedArea ring) 0) as [Hz | Hz].
    + rewrite Hz. cbn. apply IH.
    + destruct (Z.ltb_spec 0 (signedArea ring)) as [Hpos | Hneg]; cbn.
      * rewrite IH, app_nil_r, <- app_assoc. reflexivity.
      * destruct (Z.ltb_spec (signedArea ring) 0); [| lia].
        rewrite IH, <- app_assoc. reflexivity.
Qed.

Lemma classify_loop_closed rings : forall polygons,
  (let '(ps, o) := fold_left classify_step rings (polygons, None) in
   push_open ps o)
  = polygons ++ spec_polygons rings.
Proof.
  induction rings as [| ring rings IH]; intros polygons; cbn.
  - now rewrite app_nil_r.
  - destruct (Z.eqb_spec (signedArea ring) 0) as [Hz | Hz].
    + rewrite Hz. cbn. apply IH.
    + destruct (Z.ltb_spec 0 (signedArea ring)) as [Hpos | Hneg]; cbn.
      * apply (classify_loop_open rings polygons [ring]).
      * apply IH.
Qed.

Lemma spec_holes_negative rings :
  Forall (fun ring => signedArea ring < 0) (spec_holes rings).
Proof.
  induction rings as [| ring rings IH]; cbn; [constructor |].
  destruct (Z.ltb_spec 0 (signedArea ring)); [constructor |].
  destruct (Z.ltb_spec (signedArea ring) 0); [constructor; assumption | exact IH].
Qed.

Lemma spec_polygons_shape rings : Forall outer_then_holes (spec_polygons rings).
Proof.
  induction rings as [| ring rings IH]; cbn; [constructor |].
  destruct (Z.ltb_spec 0 (signedArea ring)); [| exact IH].
  constructor; [| exact IH]. cbn. split; [assumption | apply spec_holes_negative].
Qed.

(** The holes of the current polygon, then the polygons that follow, are the
    rings of nonzero area. *)
Lemma spec_holes_concat rings :
  spec_holes rings ++ concat (spec_polygons rings)
  = List.filter (fun ring => negb (signedArea ring =? 0)) rings.
Proof.
  induction rings as [| ring rings IH]; cbn; [reflexivity |].
  destruct (Z.ltb_spec 0 (signedArea ring)) as [Hpos | Hle]; cbn.
  - destruct (Z.eqb_spec (signedArea ring) 0); [lia |]. cbn. now rewrite IH.
  - destruct (Z.ltb_spec (signedArea ring) 0) as [Hneg | Hge]; cbn.
    + destruct (Z.eqb_spec (signedArea ring) 0); [lia |]. cbn. now rewrite IH.
    + destruct (Z.eqb_spec (signedArea ring) 0); [| lia]. cbn. exact IH.
Qed.

Lemma spec_polygons_concat rings :
  concat (spec_polygons rings)
  = List.filter (fun ring => negb (signedArea ring =? 0)) (from_first_outer rings).
Proof.
  induction rings as [| ring rings IH]; cbn; [reflexivity |].
  destruct (Z.ltb_spec 0 (signedArea ring)) as [Hpos | Hle]; cbn; [| exact IH].
  destruct (Z.eqb_spec (signedArea ring) 0); [lia |]. cbn.
  now rewrite spec_holes_concat.
Qed.

End RingClassification.

(** C2, as stated: no ring of zero area is ever part of the output.  It
    fails on a list made of one ring of zero area, which [classifyRings]
    returns as it is. *)
Lemma classifyRings_single_zero_area_kept :
  ~ (forall rings polygon ring,
       In polygon (classifyRings rings) -> In ring polygon -> signedArea ring <> 0).
Proof.
  intros H.
  apply (H [[mkPoint 0 0; mkPoint 1 1; mkPoint 0 0]]
           [[mkPoint 0 0; mkPoint 1 1; mkPoint 0 0]]
           [mkPoint 0 0; mkPoint 1 1; mkPoint 0 0]).
  - left. reflexivity.
  - left. reflexivity.
  - reflexivity.
Qed.

(** C2, amended: when the input has two rings or more, no ring of zero
    signed area is part of any polygon of the output.  The signed area is
    the number that [signedArea] computes, rounding included. *)
Theorem classifyRings_drops_zero_area rings polygon ring :
  (2 <= length rings)%nat ->
  In polygon (classifyRings rings) -> In ring polygon -> signedArea ring <> 0.
Proof.
  intros Hlen. unfold classifyRings.
  destruct (Nat.leb_spec (length rings) 1) as [Hle | _]; [lia |].
  pose proof (classify_loop_nonzero rings ([], None)) as Hinv.
  destruct (fold_left classify_step rings ([], None)) as [ps o].
  destruct Hinv as [Hps Hp].
  { split; cbn; [intros ? ? [] | discriminate]. }
  cbn [fst snd] in *. intros Hin Hr. destruct o as [p |]; cbn in Hin.
  - apply in_app_or in Hin as [Hin | [<- | []]]; eauto.
  - eauto.
Qed.

Lemma classifyRings_drops_zero_area_witness :
  signedArea [mkPoint 0 0; mkPoint 2 0; mkPoint 2 2; mkPoint 0 2; mkPoint 0 0] <> 0.
Proof.
  apply (classifyRings_drops_zero_area
           [[mkPoint 0 0; mkPoint 2 0; mkPoint 2 2; mkPoint 0 2; mkPoint 0 0];
            [mkPoint 5 5; mkPoint 5 5]]
           [[mkPoint 0 0; mkPoint 2 0; mkPoint 2 2; mkPoint 0 2; mkPoint 0 0]]).
  - cbn. lia.
  - vm_compute. left. reflexivity.
  - left. reflexivity.
Defined.

(** C3: a list of at most one ring is returned wrapped as a single polygon,
    whatever the signed area of the ring. *)
Theorem classifyRings_at_most_one_ring (rings : list (list Point)) :
  (length rings <= 1)%nat -> classifyRings rings = [rings].
Proof.
  intros Hlen. unfold classifyRings.
  destruct (Nat.leb_spec (length rings) 1); [reflexivity | lia].
Qed.

Lemma classifyRings_at_most_one_ring_witness :
  classifyRings [[mkPoint 0 0; mkPoint 2 0; mkPoint 2 2; mkPoint 0 0]]
  = [[[mkPoint 0 0; mkPoint 2 0; mkPoint 2 2; mkPoint 0 0]]].
Proof. apply classifyRings_at_most_one_ring. cbn. lia. Defined.

(** C4: on two rings or more, [classifyRings] is the classification of the
    specification: each ring of positive area starts a new polygon, each
    ring of negative area becomes a hole of the current polygon, rings of
    zero area are dropped, and a ring of negative area that comes before the
    first ring of positive area is discarded.  Hence every polygon of the
    output is a ring of positive area followed by rings of negative area,
    and the polygons laid end to end are the rings of the input, in order,
    from the first ring of positive area on and without those of zero
    area.  The area of a ring is the number that [signedArea] computes,
    rounding included. *)
Theorem classifyRings_two_or_more (rings : list (list Point)) :
  (2 <= length rings)%nat ->
  classifyRings rings = spec_polygons rings
  /\ Forall outer_then_holes (classifyRings rings)
  /\ concat (classifyRings rings)
     = List.filter (fun ring => negb (signedArea ring =? 0)) (from_first_outer rings).
Proof.
  intros Hlen.
  assert (Heq : classifyRings rings = spec_polygons rings).
  { unfold classifyRings.
    destruct (Nat.leb_spec (length rings) 1) as [Hle | _]; [lia |].
    apply (classify_loop_closed rings []). }
  rewrite Heq. repeat split.
  - apply spec_polygons_shape.
  - apply spec_polygons_concat.
Qed.

Lemma classifyRings_two_or_more_witness :
  let outer := [mkPoint 0 0; mkPoint 4 0; mkPoint 4 4; mkPoint 0 4; mkPoint 0 0] in
  let hole := [mkPoint 1 1; mkPoint 1 2; mkPoint 2 2; mkPoint 2 1; mkPoint 1 1] in
  let flat := [mkPoint 0 0; mkPoint 3 3; mkPoint 0 0] in
  let island := [mkPoint 9 9; mkPoint 10 9; mkPoint 10 10; mkPoint 9 9] in
  classifyRings [hole; flat; outer; flat; hole; island]
  = [[outer; hole]; [island]].
Proof.
  cbv zeta.
  refine (eq_trans (proj1 (classifyRings_two_or_more _ _)) _).
  - cbn. lia.
  - reflexivity.
Defined.

(** ** Reasoning about computations on the cursor *)

Lemma bind_Ret {A B} (m : M A) (k : A -> M B) buf pos b pos' :
  bind m k buf pos = Ret b pos' ->
  exists a p, m buf pos = Ret a p /\ k a buf p = Ret b pos'.
Proof.
  unfold bind. destruct (m buf pos) as [a p | e p |]; [eauto | discriminate ..].
Qed.

Lemma lift_Ret {A} (r : rd A) buf pos a pos' :
  lift r buf pos = Ret a pos' -> r buf pos = ROk a pos'.
Proof.
  unfold lift. destruct (r buf pos); [intros [= -> ->]; reflexivity | discriminate].
Qed.

Lemma hoare_ret {A} total (a : A) buf pos (Q : A -> Z -> Prop) :
  Q a pos -> hoare total (ret a) buf pos Q.
Proof. intros HQ. exact HQ. Qed.

Lemma hoare_throw {A} total e buf pos (Q : A -> Z -> Prop) :
  hoare total (throw e) buf pos Q.
Proof. exact I. Qed.

Lemma hoare_get_pos total buf pos (Q : Z -> Z -> Prop) :
  Q pos pos -> hoare total get_pos buf pos Q.
Proof. intros HQ. exact HQ. Qed.

Lemma hoare_bind {A B} total (m : M A) (k : A -> M B) buf pos
    (Q1 : A -> Z -> Prop) (Q : B -> Z -> Prop) :
  hoare total m buf pos Q1 ->
  (forall a p, Q1 a p -> hoare total (k a) buf p Q) ->
  hoare total (bind m k) buf pos Q.
Proof.
  unfold hoare, bind. intros Hm Hk.
  destruct (m buf pos) as [a p | e p |]; [apply Hk, Hm | exact I | exact Hm].
Qed.

Lemma hoare_conseq {A} total (m : M A) buf pos (Q1 Q : A -> Z -> Prop) :
  hoare total m buf pos Q1 -> (forall a p, Q1 a p -> Q a p) ->
  hoare total m buf pos Q.
Proof.
  unfold hoare. intros Hm HQ. destruct (m buf pos); [apply HQ, Hm | exact I | exact Hm].
Qed.

Lemma hoare_lift {A} total (r : rd A) buf pos :
  hoare total (lift r) buf pos (fun a p => r buf pos = ROk a p).
Proof. unfold hoare, lift. destruct (r buf pos); [reflexivity | exact I]. Qed.

Lemma hoare_Ret {A} total (m : M A) buf pos Q a pos' :
  hoare total m buf pos Q -> m buf pos = Ret a pos' -> Q a pos'.
Proof. unfold hoare. intros H Heq. now rewrite Heq in H. Qed.

Lemma hoare_not_Fuel {A} (m : M A) buf pos Q :
  hoare true m buf pos Q -> m buf pos <> Fuel.
Proof. unfold hoare. intros H Heq. rewrite Heq in H. discriminate. Qed.

Lemma hoare_while {St : Type} total (body : nat -> St -> M St) buf end_ :
  (forall n s p, enough total buf n p ->
     hoare total (body n s) buf p (fun _ p' => p < p' <= len buf)) ->
  forall fuel s pos,
    pos <= len buf -> enough total buf fuel (pos - 1) ->
    hoare total (while_lt fuel end_ body s) buf pos
      (fun _ p' => pos <= p' <= len buf).
Proof.
  intros Hbody. induction fuel as [| n IH]; intros s pos Hpos Hfuel.
  - unfold hoare; cbn. destruct (pos <? end_); [| lia].
    destruct total; [| reflexivity]. specialize (Hfuel eq_refl). cbn in Hfuel. lia.
  - unfold hoare at 1. cbn [while_lt]. destruct (pos <? end_); [| cbn; lia].
    apply (hoare_bind total _ _ buf pos (fun _ p' => pos < p' <= len buf)).
    + apply Hbody. intros Ht. specialize (Hfuel Ht). lia.
    + intros s' p [Hlt Hle].
      apply (hoare_conseq total _ buf p (fun _ p' => p <= p' <= len buf)).
      * apply IH; [lia |]. intros Ht. specialize (Hfuel Ht). lia.
      * intros _ p' ?. lia.
Qed.

(** A loop whose iterations decrease a measure that stays non-negative. *)
Lemma hoare_while_measure {St : Type} (mu : St -> Z -> Z)
    (body : nat -> St -> M St) buf end_ :
  (forall n s p, p <= len buf ->
     hoare true (body n s) buf p
       (fun s' p' => p' <= len buf /\ 0 <= mu s' p' < mu s p)) ->
  forall fuel s pos,
    pos <= len buf -> 0 <= mu s pos < Z.of_nat fuel ->
    hoare true (while_lt fuel end_ body s) buf pos (fun _ p' => p' <= len buf).
Proof.
  intros Hbody. induction fuel as [| n IH]; intros s pos Hpos Hfuel.
  - cbn in Hfuel. lia.
  - unfold hoare at 1. cbn [while_lt]. destruct (pos <? end_); [| exact Hpos].
    apply (hoare_bind true _ _ buf pos
             (fun s' p' => p' <= len buf /\ 0 <= mu s' p' < mu s pos)).
    + apply Hbody, Hpos.
    + intros s' p [Hle Hmu]. apply IH; [exact Hle | lia].
Qed.

(** A loop keeps what each of its iterations keeps. *)
Lemma while_lt_invariant {St : Type} (P : St -> Prop) (body : nat -> St -> M St)
    buf end_ :
  (forall n s pos s' pos', P s -> body n s buf pos = Ret s' pos' -> P s') ->
  forall fuel s pos s' pos',
    P s -> while_lt fuel end_ body s buf pos = Ret s' pos' -> P s'.
Proof.
  intros Hbody. induction fuel as [| n IH]; intros s pos s' pos' HP; cbn.
  - destruct (pos <? end_); [discriminate | intros [= <- _]; exact HP].
  - destruct (pos <? end_); [| intros [= <- _]; exact HP].
    intros Hb. apply bind_Ret in Hb as (s1 & p1 & Hs1 & Hrest).
    eapply IH; [| exact Hrest]. eapply Hbody; eauto.
Qed.

Lemma wire_only_ret {A} (a : A) : wire_only (ret a).
Proof. intros buf pos e pos'. discriminate. Qed.

Lemma wire_only_get_pos : wire_only get_pos.
Proof. intros buf pos e pos'. discriminate. Qed.

Lemma wire_only_set_pos p : wire_only (set_pos p).
Proof. intros buf pos e pos'. discriminate. Qed.

Lemma wire_only_lift {A} (r : rd A) : wire_only (lift r).
Proof.
  intros buf pos e pos'. unfold lift.
  destruct (r buf pos); [discriminate | intros [= <- _]; eauto].
Qed.

Lemma wire_only_bind {A B} (m : M A) (k : A -> M B) :
  wire_only m -> (forall a, wire_only (k a)) -> wire_only (bind m k).
Proof.
  intros Hm Hk buf pos e pos'. unfold bind.
  destruct (m buf pos) as [a p | e1 p |] eqn:Heq.
  - apply Hk.
  - intros [= <- _]. eapply Hm, Heq.
  - discriminate.
Qed.

Lemma wire_only_while {St : Type} (body : nat -> St -> M St) end_ :
  (forall n s, wire_only (body n s)) ->
  forall fuel s, wire_only (while_lt fuel end_ body s).
Proof.
  intros Hbody. induction fuel as [| n IH]; intros s buf pos e pos'; cbn.
  - destruct (pos <? end_); discriminate.
  - destruct (pos <? end_); [| discriminate].
    apply (wire_only_bind (body n s) (while_lt n end_ body)); [apply Hbody | apply IH].
Qed.

(** ** The decoder raises reader errors only, where it has no check of its own *)

Section WireOnly.
Context {R : BinaryReader}.

Lemma wire_only_throw_wire {A} msg : wire_only (@throw A (WireError msg)).
Proof. intros buf pos e pos' [= <- _]. eauto. Qed.

Ltac wire_only :=
  repeat first
    [ apply wire_only_ret | apply wire_only_get_pos | apply wire_only_set_pos
    | apply wire_only_lift | apply wire_only_throw_wire
    | apply wire_only_bind; [| intro]
    | apply wire_only_while; intros
    | match goal with
      | |- wire_only (if ?c then _ else _) => destruct c
      | |- wire_only (match ?x with _ => _ end) => destruct x
      end ].

Lemma Feature_tags_body_wire_only keys values n props :
  wire_only (Feature_tags_body keys values n props).
Proof. unfold Feature_tags_body. wire_only. Qed.

Lemma Feature_body_wire_only keys values n f :
  wire_only (Feature_body keys values n f).
Proof.
  unfold Feature_body. wire_only.
Qed.

Lemma Feature_new_wire_only fuel end_ keys values extent :
  wire_only (Feature_new fuel end_ keys values extent).
Proof. apply wire_only_while. intros. apply Feature_body_wire_only. Qed.

Lemma Feature_at_wire_only fuel l offset : wire_only (Feature_at fuel l offset).
Proof. unfold Feature_at. wire_only. Qed.

End WireOnly.

(** ** Property resolution (field 2 of a feature) *)

(** C1, as stated: an index outside its table makes the decoding of the
    feature fail.  It does not: the only feature of this tile carries the
    pair (0, 0) while its layer has neither keys nor values, and
    [Layer.feature] returns it, with [undefined] stored under the name
    "undefined". *)
Lemma feature_with_dangling_tags_is_returned :
  let l := mkLayer "" 0 0 1 [3] [] [] LongNumber in
  VectorTile_new (R := Wire.reader) 50 Tiles.dangling_tags_tile LongNumber
  = Ret (mkVectorTile (mkObj {[ ""%string := l ]} true) LongNumber) 8
  /\ feature (R := Wire.reader) 50 l 0 Tiles.dangling_tags_tile 8
     = Ret (mkFeature None UNKNOWN (mkObj {[ "undefined"%string := None ]} true) 0 0) 8.
Proof. split; vm_compute; reflexivity. Qed.

(** C1, amended: a key index outside the key table resolves to the property
    name "undefined" and a value index outside the value table to the value
    [undefined]; the pair is stored like any other pair and the loop goes
    on.  The constructor of a feature raises nothing but the errors of the
    wire reader. *)
Theorem Feature_tags_out_of_range {R : BinaryReader}
    (keys : list string) (values : list PropValues) n props buf pos k p1 v p2 :
  rd_uint32 buf pos = ROk k p1 ->
  rd_uint32 buf p1 = ROk v p2 ->
  (k < 0 \/ Z.of_nat (length keys) <= k) \/ (v < 0 \/ Z.of_nat (length values) <= v) ->
  Feature_tags_body keys values n props buf pos
  = Ret (obj_set is_null_value props (property_key (index keys k)) (index values v)) p2
  /\ (k < 0 \/ Z.of_nat (length keys) <= k ->
      property_key (index keys k) = "undefined"%string)
  /\ (v < 0 \/ Z.of_nat (length values) <= v -> index values v = None)
  /\ (forall fuel end_ extent pos0 e pos',
        Feature_new fuel end_ keys values extent buf pos0 = Throw e pos' ->
        exists msg, e = WireError msg).
Proof.
  intros Hk Hv _.
  assert (Hindex : forall A (a : list A) i,
             i < 0 \/ Z.of_nat (length a) <= i -> index a i = None).
  { intros A a i Hi. unfold index. destruct (Z.ltb_spec i 0); [reflexivity |].
    apply lookup_ge_None. lia. }
  repeat split.
  - unfold Feature_tags_body, bind, reader_uint32, lift. rewrite Hk, Hv. reflexivity.
  - intros Hi. now rewrite Hindex.
  - apply Hindex.
  - intros fuel end_ extent pos0 e pos'. apply Feature_new_wire_only.
Qed.

Lemma Feature_tags_out_of_range_witness :
  Feature_tags_body (R := Wire.reader) [] [] 0%nat obj_empty Tiles.dangling_tags_tile 6
  = Ret (mkObj {[ "undefined"%string := None ]} true) 8.
Proof.
  refine (eq_trans (proj1 (Feature_tags_out_of_range (R := Wire.reader)
                             [] [] 0%nat obj_empty Tiles.dangling_tags_tile 6 0 7 0 8
                             _ _ _)) _).
  - reflexivity.
  - reflexivity.
  - left. right. cbn. lia.
  - reflexivity.
Defined.

(** ** Access to a feature by index *)

Section FeatureAccess.
Context {R : BinaryReader}.

Lemma Layer_new_length fuel end_ longType buf pos l pos' :
  Layer_new fuel end_ longType buf pos = Ret l pos' ->
  layer_length l = Z.of_nat (length (featureOffsets l)).
Proof.
  unfold Layer_new. intros H. apply bind_Ret in H as (l0 & p & _ & H).
  injection H as <- _. reflexivity.
Qed.

Lemma feature_out_of_range fuel l index_ buf pos :
  index_ < 0 \/ Z.of_nat (length (featureOffsets l)) <= index_ ->
  feature fuel l index_ buf pos = Throw OutOfBounds pos.
Proof.
  intros Hi. unfold feature.
  destruct (Z.ltb_spec index_ 0); [reflexivity |].
  destruct (Z.geb_spec index_ (Z.of_nat (length (featureOffsets l)))); [reflexivity | lia].
Qed.

Lemma feature_in_range fuel l index_ buf pos :
  0 <= index_ < Z.of_nat (length (featureOffsets l)) ->
  exists offset,
    featureOffsets l !! Z.to_nat index_ = Some offset
    /\ feature fuel l index_ buf pos = Feature_at fuel l offset buf pos.
Proof.
  intros Hi. unfold feature.
  destruct (Z.ltb_spec index_ 0); [lia |].
  destruct (Z.geb_spec index_ (Z.of_nat (length (featureOffsets l)))); [lia |]. cbn.
  destruct (lookup_lt_is_Some_2 (featureOffsets l) (Z.to_nat index_)) as [offset Hoff];
    [lia |].
  exists offset. split; [exact Hoff |].
  f_equal. apply nth_lookup_Some with (d := 0) in Hoff. exact Hoff.
Qed.

End FeatureAccess.

(** C5, as stated: [feature(index)] succeeds for every index in range.  It
    does not when the sub-message of the feature is malformed: the layer
    scan only skips over it, so this layer is built with one feature, and
    the decoding of that feature runs off the end of the buffer. *)
Lemma feature_in_range_may_fail :
  ~ (forall (R : BinaryReader) fuel0 end_ longType buf pos0 l pos1 index_,
       Layer_new fuel0 end_ longType buf pos0 = Ret l pos1 ->
       0 <= index_ < layer_length l ->
       exists fuel f pos', feature fuel l index_ buf pos1 = Ret f pos').
Proof.
  intros H.
  destruct (H Wire.reader 10%nat 5 LongNumber Tiles.truncated_feature_tile 2
              (mkLayer "" 0 0 1 [3] [] [] LongNumber) 5 0)
    as (fuel & f & pos' & Hf).
  - vm_compute. reflexivity.
  - cbn. lia.
  - destruct fuel as [| n]; vm_compute in Hf; discriminate.
Qed.

(** C5, amended: on a layer built by the constructor, [feature(index)]
    fails with the out-of-range error for every integer index outside
    [0, length); for an index in range it never raises that error: it is the
    decoding of the feature sub-message found at the recorded offset, which
    returns the feature or fails with an error of the wire reader. *)
Theorem feature_index {R : BinaryReader} fuel0 end_ longType buf pos0 l pos1
    fuel index_ pos :
  Layer_new fuel0 end_ longType buf pos0 = Ret l pos1 ->
  (index_ < 0 \/ layer_length l <= index_ ->
   feature fuel l index_ buf pos = Throw OutOfBounds pos)
  /\ (0 <= index_ < layer_length l ->
      exists offset,
        featureOffsets l !! Z.to_nat index_ = Some offset
        /\ feature fuel l index_ buf pos = Feature_at fuel l offset buf pos
        /\ forall e pos', feature fuel l index_ buf pos = Throw e pos' ->
                          exists msg, e = WireError msg).
Proof.
  intros Hl. apply Layer_new_length in Hl. rewrite Hl. split.
  - apply feature_out_of_range.
  - intros Hi. destruct (feature_in_range fuel l index_ buf pos Hi) as (offset & Hoff & Heq).
    exists offset. repeat split; [exact Hoff | exact Heq |].
    intros e pos'. rewrite Heq. apply Feature_at_wire_only.
Qed.

Lemma feature_index_witness :
  feature (R := Wire.reader) 50 (mkLayer "a" 2 4096 1 [8] ["k"%string] [PString "v"] LongNumber)
    1 Tiles.point_tile 33
  = Throw OutOfBounds 33.
Proof.
  apply (proj1 (feature_index (R := Wire.reader) 50 33 LongNumber Tiles.point_tile 2
                  (mkLayer "a" 2 4096 1 [8] ["k"%string] [PString "v"] LongNumber) 33
                  50 1 33 ltac:(vm_compute; reflexivity))).
  right. cbn. lia.
Defined.

(** ** Layers of a tile *)

(** C8: every layer stored in the layers map of a decoded tile has at least
    one feature. *)
Theorem VectorTile_layers_nonempty {R : BinaryReader} fuel bytes longType tile pos' :
  VectorTile_new fuel bytes longType = Ret tile pos' ->
  forall name l, own (layers tile) !! name = Some l -> 1 <= layer_length l.
Proof.
  unfold VectorTile_new. intros H.
  apply bind_Ret in H as (end_ & p0 & _ & H).
  apply bind_Ret in H as (ls & p1 & Hloop & H). injection H as <- _. cbn.
  revert Hloop.
  apply (while_lt_invariant
           (fun ls : obj Layer =>
              forall name l, own ls !! name = Some l -> 1 <= layer_length l)).
  - intros n s pos s' p' Hs Hbody. unfold VectorTile_body in Hbody.
    apply bind_Ret in Hbody as (? & ? & _ & Hbody).
    apply bind_Ret in Hbody as (? & ? & _ & Hbody).
    apply bind_Ret in Hbody as (? & ? & _ & Hbody).
    apply bind_Ret in Hbody as (layer & ? & Hlayer & Hbody).
    injection Hbody as <- _. apply Layer_new_length in Hlayer.
    destruct (Z.eqb_spec (layer_length layer) 0) as [Hz | Hnz]; [exact Hs |].
    unfold obj_set.
    destruct (String.eqb (layer_name layer) "__proto__" && proto_accessor s);
      [exact Hs |].
    cbn. intros name l. rewrite lookup_insert.
    destruct (decide (layer_name layer = name)); [| apply Hs].
    intros [= <-]. lia.
  - intros name l. unfold obj_empty. cbn [own]. rewrite lookup_empty. discriminate.
Qed.

Lemma VectorTile_layers_nonempty_witness :
  1 <= layer_length (mkLayer "a" 2 4096 1 [8] ["k"%string] [PString "v"] LongNumber).
Proof.
  refine (VectorTile_layers_nonempty (R := Wire.reader) 50 Tiles.point_tile LongNumber
            (mkVectorTile
               (mkObj {[ "a"%string :=
                           mkLayer "a" 2 4096 1 [8] ["k"%string] [PString "v"] LongNumber ]}
                  true) LongNumber) 33 _ "a"%string _ _).
  - vm_compute. reflexivity.
  - vm_compute. reflexivity.
Defined.

(** ** Geometry accessors *)

Section Accessors.
Context {R : BinaryReader}.

Lemma loadGeometry_reseeks fuel f buf pos pos' :
  loadGeometry fuel f buf pos = loadGeometry fuel f buf pos'.
Proof. reflexivity. Qed.

Lemma bbox_reseeks fuel f buf pos pos' :
  bbox fuel f buf pos = bbox fuel f buf pos'.
Proof. reflexivity. Qed.

Lemma asPoints_non_null fuel f buf pos :
  non_null (asPoints fuel f buf pos) -> feature_type f = POINT.
Proof.
  intros (a & p & H). unfold asPoints in H.
  apply bind_Ret in H as (ls & p1 & _ & H).
  destruct (Z.eqb_spec (feature_type f) POINT); [assumption | discriminate].
Qed.

Lemma asLines_non_null fuel f buf pos :
  non_null (asLines fuel f buf pos) -> feature_type f = LINESTRING.
Proof.
  intros (a & p & H). unfold asLines in H.
  destruct (Z.eqb_spec (feature_type f) LINESTRING); [assumption | discriminate].
Qed.

Lemma asPolygons_non_null fuel f buf pos :
  non_null (asPolygons fuel f buf pos) -> feature_type f = POLYGON.
Proof.
  intros (a & p & H). unfold asPolygons in H.
  destruct (Z.eqb_spec (feature_type f) POLYGON); [assumption | discriminate].
Qed.

End Accessors.

(** C6, as stated: exactly one of the three accessors returns non-null.  On
    a feature of type UNKNOWN, such as the only feature of this tile (it has
    no field 3), the three of them return [null]. *)
Lemma accessors_all_null_for_unknown_type :
  let l := mkLayer "" 0 0 1 [3] [] [] LongNumber in
  let f := mkFeature None UNKNOWN obj_empty 5 0 in
  feature (R := Wire.reader) 50 l 0 Tiles.closepath_tile 8 = Ret f 8
  /\ asPoints (R := Wire.reader) 50 f Tiles.closepath_tile 8 = Ret None 8
  /\ asLines (R := Wire.reader) 50 f Tiles.closepath_tile 8 = Ret None 8
  /\ asPolygons (R := Wire.reader) 50 f Tiles.closepath_tile 8 = Ret None 8.
Proof. repeat split; vm_compute; reflexivity. Qed.

(** C6, amended: [asPoints()] returns no value other than [null] unless the
    type is POINT, [asLines()] returns [null] unless the type is LINESTRING,
    [asPolygons()] returns [null] unless the type is POLYGON; hence at most
    one of the three returns non-null, and none does when the type is not
    one of the three.  When the geometry decodes, the accessor of the
    feature's type returns non-null. *)
Theorem accessors_by_type {R : BinaryReader} fuel (f : Feature) buf pos :
  (feature_type f <> POINT ->
   forall r pos', asPoints fuel f buf pos = Ret r pos' -> r = None)
  /\ (feature_type f <> LINESTRING -> asLines fuel f buf pos = Ret None pos)
  /\ (feature_type f <> POLYGON -> asPolygons fuel f buf pos = Ret None pos)
  /\ ~ (non_null (asPoints fuel f buf pos) /\ non_null (asLines fuel f buf pos))
  /\ ~ (non_null (asPoints fuel f buf pos) /\ non_null (asPolygons fuel f buf pos))
  /\ ~ (non_null (asLines fuel f buf pos) /\ non_null (asPolygons fuel f buf pos))
  /\ (forall lines_ pos', loadGeometry fuel f buf pos = Ret lines_ pos' ->
       (feature_type f = POINT -> non_null (asPoints fuel f buf pos))
       /\ (feature_type f = LINESTRING -> non_null (asLines fuel f buf pos))
       /\ (feature_type f = POLYGON -> non_null (asPolygons fuel f buf pos))).
Proof.
  repeat split.
  - intros Hty r pos' H. unfold asPoints in H.
    apply bind_Ret in H as (ls & p1 & _ & H).
    destruct (Z.eqb_spec (feature_type f) POINT); [contradiction |].
    injection H as <- _. reflexivity.
  - intros Hty. unfold asLines.
    destruct (Z.eqb_spec (feature_type f) LINESTRING); [contradiction | reflexivity].
  - intros Hty. unfold asPolygons.
    destruct (Z.eqb_spec (feature_type f) POLYGON); [contradiction | reflexivity].
  - intros [Hp Hl]. apply asPoints_non_null in Hp. apply asLines_non_null in Hl.
    rewrite Hp in Hl. discriminate.
  - intros [Hp Hg]. apply asPoints_non_null in Hp. apply asPolygons_non_null in Hg.
    rewrite Hp in Hg. discriminate.
  - intros [Hl Hg]. apply asLines_non_null in Hl. apply asPolygons_non_null in Hg.
    rewrite Hl in Hg. discriminate.
  - intros Hty. unfold non_null, asPoints, bind. do 2 eexists. rewrite H, Hty. reflexivity.
  - intros Hty. unfold non_null, asLines. do 2 eexists. rewrite Hty. cbn. unfold bind.
    rewrite H. reflexivity.
  - intros Hty. unfold non_null, asPolygons. do 2 eexists. rewrite Hty. cbn. unfold bind.
    rewrite H. reflexivity.
Qed.

Lemma accessors_by_type_witness :
  asLines (R := Wire.reader) 50
    (mkFeature (Some "5"%string) POINT (mkObj {[ "k"%string := Some (PString "v") ]} true)
       18 4096) Tiles.point_tile 0
  = Ret None 0.
Proof.
  apply (proj1 (proj2 (accessors_by_type (R := Wire.reader) 50 _ Tiles.point_tile 0))).
  cbn. discriminate.
Defined.

(** C7: [loadGeometry()] and [bbox()] give the same result when called again
    on the same buffer, whatever calls on the tile were made in between and
    wherever these left the shared cursor. *)
Theorem geometry_calls_repeatable {R : BinaryReader} fuel (f : Feature) buf pos
    fuel' (calls : list call) :
  loadGeometry fuel f buf
    (run_calls fuel' calls buf (cursor_after (loadGeometry fuel f buf pos) pos))
  = loadGeometry fuel f buf pos
  /\ bbox fuel f buf
       (run_calls fuel' calls buf (cursor_after (bbox fuel f buf pos) pos))
     = bbox fuel f buf pos.
Proof. split; [apply loadGeometry_reseeks | apply bbox_reseeks]. Qed.

(** ** GeoJSON of a feature of unknown type *)

(** C10: for a feature whose type is none of POINT, LINESTRING and POLYGON,
    [toGeoJSON] raises a [TypeError] instead of returning: the switch leaves
    [coordinates] undefined and its [length] is read next. *)
Theorem toGeoJSON_unknown_type {R : BinaryReader} (number : Type)
    (project_point : Z -> number -> number -> number -> Point -> number * number)
    fuel (f : Feature) (x_ y_ zoom : number) buf pos :
  feature_type f <> POINT -> feature_type f <> LINESTRING -> feature_type f <> POLYGON ->
  toGeoJSON number project_point fuel f x_ y_ zoom buf pos = Throw TypeError pos.
Proof.
  intros H1 H2 H3. unfold toGeoJSON, toGeoJSON_switch, bind.
  destruct (Z.eqb_spec (feature_type f) POINT); [contradiction |].
  destruct (Z.eqb_spec (feature_type f) LINESTRING); [contradiction |].
  destruct (Z.eqb_spec (feature_type f) 3); [contradiction |].
  reflexivity.
Qed.

Lemma toGeoJSON_unknown_type_witness :
  toGeoJSON (R := Wire.reader) Z (fun _ _ _ _ p => (x p, y p)) 50
    (mkFeature None UNKNOWN obj_empty 5 0) 0 0 0 Tiles.closepath_tile 8
  = Throw TypeError 8.
Proof.
  apply (toGeoJSON_unknown_type (R := Wire.reader)); cbn; discriminate.
Defined.

(** ** Termination and progress of the decoding loops *)

Section Progress.
Context {R : BinaryReader} {L : ReaderLaws R}.
Variable total : bool.
Variable buf : list byte.

Lemma hoare_advances {A} (r : rd A) pos :
  advances r -> hoare total (lift r) buf pos (fun _ p' => pos < p' <= len buf).
Proof.
  intros Hr. eapply hoare_conseq; [apply hoare_lift |].
  intros a p Heq. eapply Hr, Heq.
Qed.

Lemma hoare_bounded {A} (r : rd A) pos :
  bounded r -> hoare total (lift r) buf pos (fun _ p' => pos <= p' <= len buf).
Proof.
  intros Hr. eapply hoare_conseq; [apply hoare_lift |].
  intros a p Heq. eapply Hr, Heq.
Qed.

Lemma hoare_uint32 pos :
  hoare total reader_uint32 buf pos
    (fun v p' => pos < p' <= len buf /\ 0 <= v < 2 ^ 32).
Proof.
  eapply hoare_conseq; [apply hoare_lift |].
  intros v p Heq. split; [eapply uint32_advances | eapply uint32_range]; exact Heq.
Qed.

(** A read that moves the cursor forward, then a continuation that does
    not move it backwards. *)
Ltac read_then r :=
  eapply hoare_bind; [apply (hoare_advances _ _ r) | cbv beta; intros ? ? ?].
Ltac read_bounded r :=
  eapply hoare_bind; [apply (hoare_bounded _ _ r) | cbv beta; intros ? ? ?].
Ltac read_pos :=
  match goal with
  | |- hoare ?t (bind get_pos _) ?b ?p _ =>
      apply (hoare_bind t _ _ b p (fun a p' => a = p /\ p' = p));
      [split; reflexivity | cbv beta; intros ? ? [-> ->]]
  end.
Ltac done_ret := apply hoare_ret; lia.

Lemma hoare_convertLong longType long pos :
  hoare total (convertLong longType long) buf pos (fun _ p' => p' = pos).
Proof.
  unfold convertLong. destruct longType; [| now apply hoare_ret ..].
  destruct (long_toNumber long); [apply hoare_throw | now apply hoare_ret].
Qed.

Lemma decodeValue_body_advances longType n value pos :
  hoare total (decodeValue_body longType n value) buf pos
    (fun _ p' => pos < p' <= len buf).
Proof.
  unfold decodeValue_body. read_then tag_advances.
  repeat match goal with |- hoare _ (if ?c then _ else _) _ _ _ => destruct c end.
  - read_bounded string_bounded. done_ret.
  - read_bounded float_bounded. done_ret.
  - read_bounded double_bounded. done_ret.
  - read_bounded int64_bounded.
    eapply hoare_conseq; [apply hoare_convertLong |]. cbv beta. intros; lia.
  - read_bounded uint64_bounded.
    eapply hoare_conseq; [apply hoare_convertLong |]. cbv beta. intros; lia.
  - read_bounded sint64_bounded.
    eapply hoare_conseq; [apply hoare_convertLong |]. cbv beta. intros; lia.
  - read_bounded bool_bounded. done_ret.
  - done_ret.
Qed.

Lemma decodeValue_advances longType n pos :
  enough total buf n pos ->
  hoare total (decodeValue longType n) buf pos (fun _ p' => pos < p' <= len buf).
Proof.
  intros Hn. unfold decodeValue. read_then uint32_advances.
  read_pos.
  eapply hoare_conseq.
  - apply hoare_while.
    + intros. apply decodeValue_body_advances.
    + lia.
    + intros Ht. specialize (Hn Ht). lia.
  - cbv beta. intros; lia.
Qed.

Lemma Layer_body_advances longType n l pos :
  enough total buf n pos ->
  hoare total (Layer_body longType n l) buf pos (fun _ p' => pos < p' <= len buf).
Proof.
  intros Hn. unfold Layer_body. read_then tag_advances.
  destruct a as [fieldId wireType].
  repeat match goal with |- hoare _ (if ?c then _ else _) _ _ _ => destruct c end.
  - read_then uint32_advances. done_ret.
  - read_bounded string_bounded. done_ret.
  - read_then uint32_advances. done_ret.
  - read_pos.
    read_bounded (skip_bounded wireType). done_ret.
  - read_bounded string_bounded. done_ret.
  - eapply hoare_bind.
    + apply decodeValue_advances. intros Ht. specialize (Hn Ht). lia.
    + cbv beta. intros. done_ret.
  - done_ret.
Qed.

Lemma Layer_new_bounded fuel end_ longType pos :
  pos <= len buf -> enough total buf fuel (pos - 1) ->
  hoare total (Layer_new fuel end_ longType) buf pos
    (fun _ p' => pos <= p' <= len buf).
Proof.
  intros Hpos Hfuel. unfold Layer_new. eapply hoare_bind.
  - apply hoare_while; [| exact Hpos | exact Hfuel].
    intros. now apply Layer_body_advances.
  - cbv beta. intros. done_ret.
Qed.

Lemma VectorTile_body_advances longType n ls pos :
  enough total buf n pos ->
  hoare total (VectorTile_body longType n ls) buf pos
    (fun _ p' => pos < p' <= len buf).
Proof.
  intros Hn. unfold VectorTile_body.
  read_then uint32_advances. read_then uint32_advances.
  read_pos.
  eapply hoare_bind.
  - apply Layer_new_bounded; [lia |]. intros Ht. specialize (Hn Ht). lia.
  - cbv beta. intros. done_ret.
Qed.

Lemma Feature_tags_body_advances keys values n props pos :
  hoare total (Feature_tags_body keys values n props) buf pos
    (fun _ p' => pos < p' <= len buf).
Proof.
  unfold Feature_tags_body.
  read_then uint32_advances. read_then uint32_advances. done_ret.
Qed.

Lemma Feature_body_advances keys values n f pos :
  enough total buf n pos ->
  hoare total (Feature_body keys values n f) buf pos
    (fun _ p' => pos < p' <= len buf).
Proof.
  intros Hn. unfold Feature_body. read_then tag_advances.
  destruct a as [fieldId wireType].
  repeat match goal with |- hoare _ (if ?c then _ else _) _ _ _ => destruct c end.
  - read_bounded int64_bounded. done_ret.
  - read_then uint32_advances.
    read_pos.
    eapply hoare_bind.
    + apply hoare_while.
      * intros. apply Feature_tags_body_advances.
      * lia.
      * intros Ht. specialize (Hn Ht). lia.
    + cbv beta. intros. done_ret.
  - read_then uint32_advances. done_ret.
  - read_pos.
    read_bounded (skip_bounded wireType). done_ret.
  - done_ret.
Qed.

Lemma Feature_at_bounded fuel l offset pos :
  enough total buf fuel offset ->
  hoare total (Feature_at fuel l offset) buf pos (fun _ p' => p' <= len buf).
Proof.
  intros Hn. unfold Feature_at.
  apply (hoare_bind total _ _ buf pos (fun _ p => p = offset)); [reflexivity |].
  intros _ p ->. read_then uint32_advances.
  read_pos.
  eapply hoare_conseq.
  - apply hoare_while.
    + intros. now apply Feature_body_advances.
    + lia.
    + intros Ht. specialize (Hn Ht). lia.
  - cbv beta. intros; lia.
Qed.

End Progress.

Section GeometryProgress.
Context {R : BinaryReader} {L : ReaderLaws R}.
Variable total : bool.
Variable buf : list byte.

Lemma shiftr3_uint32 c : 0 <= c < 2 ^ 32 -> 0 <= Z.shiftr c 3 < 2 ^ 29.
Proof.
  intros Hc. rewrite Z.shiftr_div_pow2 by lia. split.
  - apply Z.div_pos; lia.
  - apply Z.div_lt_upper_bound; lia.
Qed.

(** The head of both command loops: a command integer is read when the
    count is used up. *)
Lemma hoare_command command count pos :
  hoare total
    (if count <=? 0 then
       commandLen <- reader_uint32 ;;
       ret (Z.land commandLen 7, Z.shiftr commandLen 3)
     else ret (command, count)) buf pos
    (fun cl p => (pos < p <= len buf /\ 0 <= snd cl < 2 ^ 29)
                 \/ (p = pos /\ 0 < count /\ snd cl = count)).
Proof.
  destruct (Z.leb_spec count 0).
  - eapply hoare_bind; [apply hoare_uint32 |]. cbv beta. intros c p [Hp Hc].
    apply hoare_ret. left. split; [exact Hp |]. apply shiftr3_uint32, Hc.
  - apply hoare_ret. right. cbn. lia.
Qed.

Ltac read_then r :=
  eapply hoare_bind; [apply hoare_advances; exact r | cbv beta; intros ? ? ?].

Lemma loadGeometry_body_progress n s pos :
  hoare total (loadGeometry_body n s) buf pos
    (fun s' p' => command_progress buf pos (g_length s) p' (g_length s')).
Proof.
  unfold loadGeometry_body, command_progress.
  eapply hoare_bind; [apply hoare_command |]. cbv beta.
  intros [command count] p Hcl. cbn [snd] in Hcl.
  destruct ((command =? MoveTo) || (command =? LineTo)).
  - read_then sint32_advances. read_then sint32_advances.
    destruct (if command =? MoveTo then _ else _) as [lines_ line_].
    apply hoare_ret. cbn. lia.
  - destruct (command =? ClosePath).
    + destruct (g_line s) as [[| p0 l] |];
        [apply hoare_throw | apply hoare_ret; cbn; lia ..].
    + apply hoare_ret. cbn. lia.
Qed.

Lemma bbox_body_progress n s pos :
  hoare total (bbox_body n s) buf pos
    (fun s' p' => command_progress buf pos (b_count s) p' (b_count s')).
Proof.
  unfold bbox_body, command_progress.
  eapply hoare_bind; [apply hoare_command |]. cbv beta.
  intros [command count] p Hcl. cbn [snd] in Hcl.
  destruct ((command =? MoveTo) || (command =? LineTo)).
  - read_then sint32_advances. read_then sint32_advances.
    apply hoare_ret. cbn. lia.
  - apply hoare_ret. cbn. lia.
Qed.

End GeometryProgress.

Section GeometryTermination.
Context {R : BinaryReader} {L : ReaderLaws R}.
Variable buf : list byte.

Lemma command_progress_measure pos count pos' count' :
  pos <= len buf -> command_progress buf pos count pos' count' ->
  pos' <= len buf
  /\ 0 <= command_measure buf count' pos' < command_measure buf count pos.
Proof. unfold command_progress, command_measure. intros Hpos H. nia. Qed.

Lemma loadGeometry_terminates fuel f pos :
  (len buf - geometryOffset f) * 2 ^ 29 <= Z.of_nat fuel ->
  loadGeometry fuel f buf pos <> Fuel.
Proof.
  intros Hfuel. apply (hoare_not_Fuel _ _ _ (fun _ _ => True)).
  unfold loadGeometry.
  apply (hoare_bind true _ _ buf pos (fun _ p => p = geometryOffset f)); [reflexivity |].
  intros _ p ->. eapply hoare_bind; [apply (hoare_uint32 true) |]. cbv beta.
  intros n p [Hp _].
  apply (hoare_bind true _ _ buf p (fun a p' => a = p /\ p' = p)); [split; reflexivity |].
  intros ? ? [-> ->]. eapply hoare_bind.
  - apply (hoare_while_measure (fun s p' => command_measure buf (g_length s) p')).
    + intros k s q Hq. eapply hoare_conseq; [apply loadGeometry_body_progress |].
      cbv beta. intros s' q'. now apply command_progress_measure.
    + lia.
    + unfold command_measure. cbn [g_length]. nia.
  - intros. exact I.
Qed.

Lemma bbox_terminates fuel f pos :
  (len buf - geometryOffset f) * 2 ^ 29 <= Z.of_nat fuel ->
  bbox fuel f buf pos <> Fuel.
Proof.
  intros Hfuel. apply (hoare_not_Fuel _ _ _ (fun _ _ => True)).
  unfold bbox.
  apply (hoare_bind true _ _ buf pos (fun _ p => p = geometryOffset f)); [reflexivity |].
  intros _ p ->. eapply hoare_bind; [apply (hoare_uint32 true) |]. cbv beta.
  intros n p [Hp _].
  apply (hoare_bind true _ _ buf p (fun a p' => a = p /\ p' = p)); [split; reflexivity |].
  intros ? ? [-> ->]. eapply hoare_bind.
  - apply (hoare_while_measure (fun s p' => command_measure buf (b_count s) p')).
    + intros k s q Hq. eapply hoare_conseq; [apply bbox_body_progress |].
      cbv beta. intros s' q'. now apply command_progress_measure.
    + lia.
    + unfold command_measure. cbn [b_count]. nia.
  - intros. exact I.
Qed.

Lemma feature_terminates fuel l index_ pos :
  len buf - nth (Z.to_nat index_) (featureOffsets l) 0 <= Z.of_nat fuel ->
  feature fuel l index_ buf pos <> Fuel.
Proof.
  intros Hfuel. unfold feature.
  destruct ((index_ <? 0) || (index_ >=? Z.of_nat (length (featureOffsets l))));
    [discriminate |].
  apply (hoare_not_Fuel _ _ _ (fun _ p' => p' <= len buf)).
  apply Feature_at_bounded. intros _. exact Hfuel.
Qed.

Lemma VectorTile_new_terminates fuel longType :
  len buf < Z.of_nat fuel -> VectorTile_new fuel buf longType <> Fuel.
Proof.
  intros Hfuel. unfold VectorTile_new.
  apply (hoare_not_Fuel _ _ _ (fun _ _ => True)).
  apply (hoare_bind true _ _ buf 0 (fun _ p => p = 0)); [reflexivity |].
  intros end_ p ->. eapply hoare_bind.
  - apply hoare_while.
    + intros. now apply VectorTile_body_advances.
    + unfold len. lia.
    + intros _. lia.
  - intros. exact I.
Qed.

End GeometryTermination.

(** ** The wire reader keeps the laws of the interface *)

Module WireFacts.
Import Wire.

Lemma varint_advances n buf : forall pos shift acc v pos',
  varint n buf pos shift acc = Some (v, pos') -> pos < pos'.
Proof.
  induction n as [| n IH]; intros pos shift acc v pos'; cbn; [discriminate |].
  destruct (Z.land (byte_at buf pos) 128 =? 0).
  - intros [= _ <-]. lia.
  - intros H. apply IH in H. lia.
Qed.

Lemma read_varint_advances bits : advances (read_varint bits).
Proof.
  intros buf pos v pos'. unfold read_varint, assertBounds.
  destruct (varint 10 buf pos 0 0) as [[v0 p] |] eqn:Hv; [| discriminate].
  apply varint_advances in Hv.
  destruct (Z.gtb_spec p (len buf)); [discriminate |].
  intros [= _ <-]. lia.
Qed.

Lemma read_varint_range bits buf pos v pos' :
  0 < bits -> read_varint bits buf pos = ROk v pos' -> 0 <= v < 2 ^ bits.
Proof.
  intros Hbits. unfold read_varint, assertBounds.
  destruct (varint 10 buf pos 0 0) as [[v0 p] |]; [| discriminate].
  destruct (p >? len buf); [discriminate |].
  intros [= <- _]. apply Z.mod_pos_bound. lia.
Qed.

Lemma rmap_advances {A B} (f : A -> B) (r : rd A) :
  advances r -> advances (rmap f r).
Proof.
  intros Hr buf pos b pos'. unfold rmap.
  destruct (r buf pos) as [a p | msg p] eqn:Heq; [| discriminate].
  intros [= _ <-]. eapply Hr, Heq.
Qed.

Lemma advances_bounded {A} (r : rd A) : advances r -> bounded r.
Proof. intros Hr buf pos a pos' Heq. apply Hr in Heq. lia. Qed.

Lemma wire_tag_advances : advances tag.
Proof.
  intros buf pos t pos'. unfold tag.
  destruct (uint32 buf pos) as [v p | msg p] eqn:Heq; [| discriminate].
  destruct ((Z.shiftr v 3 <=? 0) || (5 <? Z.land v 7)); [discriminate |].
  intros [= _ <-]. eapply (read_varint_advances 32), Heq.
Qed.

Lemma skip_varint_advances n buf : forall pos, pos < skip_varint n buf pos.
Proof.
  induction n as [| n IH]; intros pos; cbn; [lia |].
  destruct (Z.land (byte_at buf pos) 128 =? 0); [lia |].
  specialize (IH (pos + 1)). lia.
Qed.

Lemma skip_plain_monotone w buf pos pos' :
  skip_plain w buf pos = ROk tt pos' -> pos <= pos'.
Proof.
  unfold skip_plain.
  destruct (w =? 0).
  { intros [= <-]. pose proof (skip_varint_advances (length buf) buf pos). lia. }
  destruct (w =? 1); [intros [= <-]; lia |].
  destruct (w =? 5); [intros [= <-]; lia |].
  destruct (w =? 2); [| discriminate].
  destruct (uint32 buf pos) as [n p | msg p] eqn:Heq; [| discriminate].
  intros [= <-].
  pose proof (read_varint_advances 32 _ _ _ _ Heq).
  pose proof (read_varint_range 32 _ _ _ _ ltac:(lia) Heq). lia.
Qed.

Lemma skip_group_bounded n buf : forall depth pos pos',
  skip_group n depth buf pos = ROk tt pos' ->
  pos <= pos' /\ (pos <= len buf \/ (0 < depth)%nat -> pos' <= len buf).
Proof.
  induction n as [| n IH]; intros depth pos pos'.
  - destruct depth; cbn; [| discriminate]. intros [= <-]. lia.
  - destruct depth as [| d]; cbn [skip_group]; [intros [= <-]; lia |].
    destruct (tag buf pos) as [[fieldNo t] p | msg p] eqn:Ht; [| discriminate].
    apply wire_tag_advances in Ht.
    destruct (t =? 4); [intros H; apply IH in H; lia |].
    destruct (t =? 3); [intros H; apply IH in H; lia |].
    destruct (skip_plain t buf p) as [[] q | msg q] eqn:Hq; [| discriminate].
    apply skip_plain_monotone in Hq.
    destruct (Z.gtb_spec q (len buf)) as [| Hle]; [discriminate |].
    intros Hrec. apply IH in Hrec. lia.
Qed.

Lemma wire_skip_bounded w : bounded (skip w).
Proof.
  intros buf pos [] pos'. unfold skip.
  destruct (w =? 3).
  - intros H. apply skip_group_bounded in H. lia.
  - destruct (skip_plain w buf pos) as [[] q | msg q] eqn:Hq; [| discriminate].
    apply skip_plain_monotone in Hq. unfold assertBounds.
    destruct (Z.gtb_spec q (len buf)); [discriminate |]. intros [= <-]. lia.
Qed.

Lemma bytes_at_inside buf pos n bs :
  bytes_at buf pos n = Some bs -> 0 <= n /\ pos + n <= len buf.
Proof.
  unfold bytes_at.
  destruct (Z.ltb_spec pos 0); [discriminate |].
  destruct (Z.ltb_spec n 0); [discriminate |].
  destruct (Z.ltb_spec (len buf) (pos + n)); [discriminate |]. cbn. lia.
Qed.

Lemma wire_string_bounded : bounded string.
Proof.
  intros buf pos s pos'. unfold string.
  destruct (uint32 buf pos) as [n p | msg p] eqn:Heq; [| discriminate].
  apply (read_varint_advances 32) in Heq.
  destruct (bytes_at buf p n) as [bs |] eqn:Hbs; [| discriminate].
  apply bytes_at_inside in Hbs.
  destruct (utf8_valid _ _); [| discriminate]. intros [= _ <-]. lia.
Qed.

Lemma fixed_bounded n : bounded (fixed n).
Proof.
  intros buf pos v pos'. unfold fixed.
  destruct (bytes_at buf pos n) as [bs |] eqn:Hbs; [| discriminate].
  apply bytes_at_inside in Hbs. intros [= _ <-]. lia.
Qed.

Lemma laws : ReaderLaws reader.
Proof.
  constructor; cbn.
  - apply read_varint_advances.
  - intros buf pos v pos'. apply read_varint_range. lia.
  - apply rmap_advances, read_varint_advances.
  - apply wire_tag_advances.
  - apply advances_bounded, rmap_advances, read_varint_advances.
  - apply advances_bounded, read_varint_advances.
  - apply advances_bounded, rmap_advances, read_varint_advances.
  - apply advances_bounded, rmap_advances, read_varint_advances.
  - apply wire_skip_bounded.
  - apply wire_string_bounded.
  - apply fixed_bounded.
  - apply fixed_bounded.
Qed.

End WireFacts.

(** ** More iterations than needed do not change an outcome *)

Section Stable.
Context {R : BinaryReader}.

Lemma fuel_stable_const {A} (m : M A) : fuel_stable (fun _ => m).
Proof. intros n n' buf pos _ _. reflexivity. Qed.

Lemma fuel_stable_bind {A B} (m : nat -> M A) (k : nat -> A -> M B) :
  fuel_stable m -> (forall a, fuel_stable (fun n => k n a)) ->
  fuel_stable (fun n => bind (m n) (k n)).
Proof.
  intros Hm Hk n n' buf pos Hle. unfold bind. intros Hne.
  rewrite (Hm n n' buf pos Hle).
  - destruct (m n buf pos) as [a p | e p |]; [| reflexivity ..].
    apply (Hk a n n' buf p Hle Hne).
  - intros Heq. rewrite Heq in Hne. contradiction.
Qed.

Lemma fuel_stable_while {St : Type} (body : nat -> St -> M St) end_ :
  (forall s, fuel_stable (fun n => body n s)) ->
  forall s, fuel_stable (fun n => while_lt n end_ body s).
Proof.
  intros Hbody s n. revert s.
  induction n as [| n IH]; intros s n' buf pos Hle; cbn.
  - destruct n'; cbn; destruct (pos <? end_); congruence.
  - destruct n' as [| n']; [lia |]. cbn. destruct (pos <? end_); [| reflexivity].
    unfold bind. intros Hne.
    rewrite (Hbody s n n' buf pos) by
      (try lia; intros Heq; rewrite Heq in Hne; contradiction).
    destruct (body n s buf pos) as [a p | e p |]; [| reflexivity ..].
    apply IH; [lia | exact Hne].
Qed.

Ltac stable :=
  repeat first
    [ apply fuel_stable_const
    | apply fuel_stable_while; intro
    | apply fuel_stable_bind; [| intro]
    | match goal with
      | |- fuel_stable (fun _ => if ?c then _ else _) => destruct c
      | |- fuel_stable (fun _ => let '(_, _) := ?x in _) => destruct x
      end ].

Lemma VectorTile_new_stable bytes longType n n' :
  (n <= n')%nat -> VectorTile_new n bytes longType <> Fuel ->
  VectorTile_new n' bytes longType = VectorTile_new n bytes longType.
Proof.
  intros Hle. unfold VectorTile_new.
  apply (fun H => H n n' bytes 0 Hle). change (fuel_stable
    (fun n => end_ <- get_len ;;
              ls <- while_lt n end_ (VectorTile_body longType) obj_empty ;;
              ret (mkVectorTile ls longType))).
  unfold VectorTile_body, Layer_new, Layer_body, decodeValue. stable.
Qed.

Lemma feature_stable l index_ : fuel_stable (fun n => feature n l index_).
Proof.
  unfold feature, Feature_at, Feature_new, Feature_body. stable.
Qed.

Lemma loadGeometry_stable f : fuel_stable (fun n => loadGeometry n f).
Proof. unfold loadGeometry. stable. Qed.

Lemma bbox_stable f : fuel_stable (fun n => bbox n f).
Proof. unfold bbox. stable. Qed.

End Stable.

(** C9, as stated: the cursor strictly advances on every path of every
    loop.  It does not in the command loops: the geometry of the only
    feature of this tile is ClosePath with a repeat count of 2 (and one more
    ClosePath); its first iteration reads the command integer, and its
    second iteration finds a count still pending, reads nothing and leaves
    the cursor at 7. *)
Lemma loadGeometry_iteration_without_advance :
  feature (R := Wire.reader) 50 (mkLayer "" 0 0 1 [3] [] [] LongNumber) 0
    Tiles.closepath_tile 8
  = Ret (mkFeature None UNKNOWN obj_empty 5 0) 8
  /\ loadGeometry_body (R := Wire.reader) 0 (mkGeometry 1 0 0 0 [] None)
       Tiles.closepath_tile 6
     = Ret (mkGeometry 7 1 0 0 [] None) 7
  /\ loadGeometry_body (R := Wire.reader) 0 (mkGeometry 7 1 0 0 [] None)
       Tiles.closepath_tile 7
     = Ret (mkGeometry 7 0 0 0 [] None) 7
  /\ ~ (forall (R : BinaryReader), ReaderLaws R ->
        forall n s buf pos s' pos',
          loadGeometry_body n s buf pos = Ret s' pos' -> pos < pos').
Proof.
  repeat split; try (vm_compute; reflexivity).
  intros H.
  specialize (H Wire.reader WireFacts.laws 0%nat (mkGeometry 7 1 0 0 [] None)
                Tiles.closepath_tile 7 (mkGeometry 7 0 0 0 [] None) 7 eq_refl).
  lia.
Qed.

(** C9, amended: decoding terminates on every buffer: the tile scan, the
    decoding of a feature, [loadGeometry] and [bbox] all finish once they
    are allowed enough iterations, with an outcome that more iterations do
    not change.  Each iteration of the tile, layer, value, feature and
    tag-pair loops that returns has moved the cursor forward.  An iteration
    of the command loops of [loadGeometry] and [bbox] either moves the
    cursor forward or leaves it in place and decrements a positive repeat
    count, whatever the command code; no iteration raises the count to 2^29
    or above, so the cursor moves again within 2^29 iterations. *)
Theorem decoding_terminates {R : BinaryReader} (L : ReaderLaws R) (buf : list byte) :
  (forall longType fuel,
      len buf < Z.of_nat fuel ->
      VectorTile_new fuel buf longType <> Fuel
      /\ VectorTile_new fuel buf longType = VectorTile_new (S (length buf)) buf longType)
  /\ (forall l index_ pos, exists N,
        feature N l index_ buf pos <> Fuel
        /\ forall fuel, (N <= fuel)%nat ->
                        feature fuel l index_ buf pos = feature N l index_ buf pos)
  /\ (forall f pos, exists N,
        loadGeometry N f buf pos <> Fuel /\ bbox N f buf pos <> Fuel
        /\ forall fuel, (N <= fuel)%nat ->
                        loadGeometry fuel f buf pos = loadGeometry N f buf pos
                        /\ bbox fuel f buf pos = bbox N f buf pos)
  /\ (forall longType n ls pos ls' pos',
        VectorTile_body longType n ls buf pos = Ret ls' pos' -> pos < pos')
  /\ (forall longType n l pos l' pos',
        Layer_body longType n l buf pos = Ret l' pos' -> pos < pos')
  /\ (forall longType n v pos v' pos',
        decodeValue_body longType n v buf pos = Ret v' pos' -> pos < pos')
  /\ (forall keys values n f pos f' pos',
        Feature_body keys values n f buf pos = Ret f' pos' -> pos < pos')
  /\ (forall keys values n props pos props' pos',
        Feature_tags_body keys values n props buf pos = Ret props' pos' -> pos < pos')
  /\ (forall n s pos s' pos',
        loadGeometry_body n s buf pos = Ret s' pos' ->
        command_progress buf pos (g_length s) pos' (g_length s'))
  /\ (forall n s pos s' pos',
        bbox_body n s buf pos = Ret s' pos' ->
        command_progress buf pos (b_count s) pos' (b_count s')).
Proof.
  assert (Hpartial : forall n p, enough false buf n p) by (intros n p; discriminate).
  repeat apply conj.
  - intros longType fuel Hfuel. split; [now apply VectorTile_new_terminates |].
    apply VectorTile_new_stable; [unfold len in Hfuel; lia |].
    apply VectorTile_new_terminates. unfold len. lia.
  - intros l index_ pos.
    exists (Z.to_nat (len buf - nth (Z.to_nat index_) (featureOffsets l) 0)).
    assert (Hne : feature (Z.to_nat (len buf - nth (Z.to_nat index_) (featureOffsets l) 0))
                    l index_ buf pos <> Fuel)
      by (apply feature_terminates; lia).
    split; [exact Hne |]. intros fuel Hfuel. now apply feature_stable.
  - intros f pos. exists (Z.to_nat ((len buf - geometryOffset f) * 2 ^ 29)).
    assert (Hl : loadGeometry (Z.to_nat ((len buf - geometryOffset f) * 2 ^ 29)) f buf pos
                 <> Fuel) by (apply loadGeometry_terminates; lia).
    assert (Hb : bbox (Z.to_nat ((len buf - geometryOffset f) * 2 ^ 29)) f buf pos
                 <> Fuel) by (apply bbox_terminates; lia).
    repeat split; [exact Hl | exact Hb | now apply loadGeometry_stable
                  | now apply bbox_stable].
  - intros longType n ls pos ls' pos' H.
    apply (hoare_Ret _ _ _ _ _ _ _ (VectorTile_body_advances false buf longType n ls pos
                                       (Hpartial n pos))) in H. lia.
  - intros longType n l pos l' pos' H.
    apply (hoare_Ret _ _ _ _ _ _ _ (Layer_body_advances false buf longType n l pos
                                       (Hpartial n pos))) in H. lia.
  - intros longType n v pos v' pos' H.
    apply (hoare_Ret _ _ _ _ _ _ _ (decodeValue_body_advances false buf longType n v pos))
      in H. lia.
  - intros keys values n f pos f' pos' H.
    apply (hoare_Ret _ _ _ _ _ _ _ (Feature_body_advances false buf keys values n f pos
                                       (Hpartial n pos))) in H. lia.
  - intros keys values n props pos props' pos' H.
    apply (hoare_Ret _ _ _ _ _ _ _
             (Feature_tags_body_advances false buf keys values n props pos)) in H. lia.
  - intros n s pos s' pos' H.
    apply (hoare_Ret _ _ _ _ _ _ _ (loadGeometry_body_progress false buf n s pos)) in H.
    exact H.
  - intros n s pos s' pos' H.
    apply (hoare_Ret _ _ _ _ _ _ _ (bbox_body_progress false buf n s pos)) in H.
    exact H.
Qed.

Lemma decoding_terminates_witness :
  VectorTile_new (R := Wire.reader) 34 Tiles.point_tile LongNumber <> Fuel.
Proof.
  apply (proj1 (decoding_terminates WireFacts.laws Tiles.point_tile)).
  vm_compute. reflexivity.
Defined.

(** * Further properties *)

(** ** Rounding *)

Section Rounding.

Lemma round_double_0 : round_double 0 = 0.
Proof. reflexivity. Qed.

(** Below 2^53 nothing is rounded. *)
Lemma round_double_exact z : Z.abs z < 2 ^ 53 -> round_double z = z.
Proof.
  intros Hz. unfold round_double, round_magnitude.
  destruct (Z.ltb_spec (Z.abs z) (2 ^ 53)) as [_ | Hge]; [| lia].
  lia.
Qed.

(** Rounding is symmetric about zero. *)
Lemma round_double_opp z : round_double (- z) = - round_double z.
Proof.
  unfold round_double. rewrite Z.sgn_opp, Z.abs_opp. lia.
Qed.

(** From 2^53 on, a rounded magnitude is a significand of 53 bits (or the
    next power of two) times a power of two. *)
Lemma round_magnitude_shape a :
  2 ^ 53 <= a ->
  exists q e, 1 <= e /\ 2 ^ 52 <= q <= 2 ^ 53 /\ round_magnitude a = q * 2 ^ e.
Proof.
  intros Ha. unfold round_magnitude.
  destruct (Z.ltb_spec a (2 ^ 53)) as [Hlt | _]; [lia |].
  assert (Hlog : 53 <= Z.log2 a).
  { change 53 with (Z.log2 (2 ^ 53)). apply Z.log2_le_mono, Ha. }
  destruct (Z.log2_spec a) as [Hlo Hhi]; [lia |].
  set (e := Z.log2 a - 52) in *.
  assert (He : 1 <= e) by (unfold e; lia).
  assert (Hpe : 0 < 2 ^ e) by (apply Z.pow_pos_nonneg; lia).
  replace (Z.log2 a) with (52 + e) in Hlo, Hhi by (unfold e; lia).
  replace (Z.succ (52 + e)) with (53 + e) in Hhi by lia.
  rewrite Z.pow_add_r in Hlo, Hhi by lia.
  assert (Hq : 2 ^ 52 <= a / 2 ^ e < 2 ^ 53).
  { split.
    - apply Z.div_le_lower_bound; lia.
    - apply Z.div_lt_upper_bound; lia. }
  exists (if a mod 2 ^ e <? 2 ^ (e - 1) then a / 2 ^ e
          else if 2 ^ (e - 1) <? a mod 2 ^ e then a / 2 ^ e + 1
          else if Z.even (a / 2 ^ e) then a / 2 ^ e else a / 2 ^ e + 1), e.
  split; [exact He |]. split; [| reflexivity].
  repeat match goal with |- context [if ?c then _ else _] => destruct c end; lia.
Qed.

(** Such a number is a double: rounding leaves it as it is. *)
Lemma round_magnitude_double q e :
  1 <= e -> 2 ^ 52 <= q <= 2 ^ 53 -> round_magnitude (q * 2 ^ e) = q * 2 ^ e.
Proof.
  intros He Hq.
  assert (Hnorm : forall q e, 1 <= e -> 2 ^ 52 <= q < 2 ^ 53 ->
            round_magnitude (q * 2 ^ e) = q * 2 ^ e).
  { clear. intros q e He Hq.
    assert (Hpe : 2 <= 2 ^ e).
    { change 2 with (2 ^ 1) at 1. apply Z.pow_le_mono_r; lia. }
    assert (Hlog : Z.log2 (q * 2 ^ e) = 52 + e).
    { apply Z.log2_unique; [lia |].
      replace (Z.succ (52 + e)) with (53 + e) by lia.
      rewrite !Z.pow_add_r by lia.
      split; [apply Z.mul_le_mono_nonneg_r | apply Z.mul_lt_mono_pos_r]; lia. }
    unfold round_magnitude.
    destruct (Z.ltb_spec (q * 2 ^ e) (2 ^ 53)) as [Hlt | _]; [nia |].
    rewrite Hlog. replace (52 + e - 52) with e by lia.
    rewrite Z.div_mul, Z.mod_mul by lia.
    assert (Hhalf : 0 < 2 ^ (e - 1)) by (apply Z.pow_pos_nonneg; lia).
    destruct (Z.ltb_spec 0 (2 ^ (e - 1))); [reflexivity | lia]. }
  destruct (Z.eq_dec q (2 ^ 53)) as [-> | Hne].
  - replace (2 ^ 53 * 2 ^ e) with (2 ^ 52 * 2 ^ (e + 1)).
    + apply Hnorm; lia.
    + rewrite Z.pow_add_r by lia. lia.
  - apply Hnorm; lia.
Qed.

Lemma round_magnitude_idem a :
  round_magnitude (round_magnitude a) = round_magnitude a.
Proof.
  destruct (Z.lt_ge_cases a (2 ^ 53)) as [Hlt | Hge].
  - unfold round_magnitude.
    destruct (Z.ltb_spec a (2 ^ 53)) as [_ | Hge]; [| lia].
    destruct (Z.ltb_spec a (2 ^ 53)) as [_ | Hge]; [reflexivity | lia].
  - destruct (round_magnitude_shape a Hge) as (q & e & He & Hq & ->).
    now apply round_magnitude_double.
Qed.

Lemma round_magnitude_pos a : 0 < a -> 0 < round_magnitude a.
Proof.
  intros Ha. destruct (Z.lt_ge_cases a (2 ^ 53)) as [Hlt | Hge].
  - unfold round_magnitude.
    destruct (Z.ltb_spec a (2 ^ 53)) as [_ | Hge]; [exact Ha | lia].
  - destruct (round_magnitude_shape a Hge) as (q & e & He & Hq & ->).
    assert (0 < 2 ^ e) by (apply Z.pow_pos_nonneg; lia). nia.
Qed.

(** A rounded number is a double. *)
Lemma round_double_idem z : round_double (round_double z) = round_double z.
Proof.
  assert (Hpos : forall a, 0 < a -> round_double (round_double a) = round_double a).
  { intros a Ha. unfold round_double at 2 3.
    rewrite Z.sgn_pos, Z.abs_eq, Z.mul_1_l by lia.
    pose proof (round_magnitude_pos a Ha) as Hm. unfold round_double.
    rewrite Z.sgn_pos, Z.abs_eq, Z.mul_1_l by lia.
    apply round_magnitude_idem. }
  destruct (Z.lt_trichotomy z 0) as [Hneg | [-> | Hgt]].
  - pose proof (Hpos (- z) ltac:(lia)) as H.
    rewrite !round_double_opp in H. lia.
  - reflexivity.
  - apply Hpos, Hgt.
Qed.

Lemma number_sub_swap a b : number_sub a b = - number_sub b a.
Proof.
  unfold number_sub. rewrite <- round_double_opp. f_equal. lia.
Qed.

Lemma number_add_comm a b : number_add a b = number_add b a.
Proof. unfold number_add. now rewrite Z.add_comm. Qed.

Lemma number_mul_opp_l a b : number_mul (- a) b = - number_mul a b.
Proof.
  unfold number_mul. rewrite <- round_double_opp. f_equal. lia.
Qed.

End Rounding.

(** ** The signed area *)

Section SignedArea.
Implicit Types (p q prev : Point) (ring : list Point).

Lemma area_term_bound B prev p :
  Z.abs (x prev) <= B /\ Z.abs (y prev) <= B ->
  Z.abs (x p) <= B /\ Z.abs (y p) <= B ->
  Z.abs (x prev - x p) <= 2 * B /\ Z.abs (y p + y prev) <= 2 * B
  /\ Z.abs (area_term prev p) <= 4 * B * B.
Proof.
  intros [Hx1 Hy1] [Hx2 Hy2].
  assert (Ha : Z.abs (x prev - x p) <= 2 * B) by lia.
  assert (Hb : Z.abs (y p + y prev) <= 2 * B) by lia.
  repeat split; [exact Ha | exact Hb |].
  unfold area_term. rewrite Z.abs_mul.
  replace (4 * B * B) with ((2 * B) * (2 * B)) by lia.
  apply Z.mul_le_mono_nonneg; lia.
Qed.

(** As long as no product and no partial sum reaches 2^53, the loop of
    [signedArea] adds the exact summands. *)
Lemma signedArea_loop_exact B ring : forall prev sum,
  Z.abs (x prev) <= B /\ Z.abs (y prev) <= B ->
  within B ring ->
  Z.abs sum + 4 * B * B * Z.of_nat (length ring) < 2 ^ 53 ->
  signedArea_loop prev ring sum = sum + path_sum prev ring.
Proof.
  induction ring as [| p ring IH]; intros prev sum Hprev Hring Hsum;
    cbn [signedArea_loop path_sum]; [lia |].
  apply Forall_cons_iff in Hring as [Hp Hring].
  destruct (area_term_bound B prev p Hprev Hp) as (Ha & Hb & Hab).
  cbn [length] in Hsum. rewrite Nat2Z.inj_succ in Hsum.
  assert (HB : 0 <= B) by lia.
  assert (H4 : 2 * B <= 4 * B * B) by nia.
  assert (Hn : 0 <= 4 * B * B * Z.of_nat (length ring)) by nia.
  unfold number_sub, number_add at 2.
  rewrite !round_double_exact by lia.
  unfold number_mul. rewrite round_double_exact by (fold (area_term prev p); lia).
  unfold number_add. rewrite round_double_exact by (fold (area_term prev p); lia).
  fold (area_term prev p).
  rewrite IH; [lia | exact Hp | exact Hring | lia].
Qed.

Lemma within_last B ring :
  within B ring ->
  Z.abs (x (List.last ring (mkPoint 0 0))) <= B
  /\ Z.abs (y (List.last ring (mkPoint 0 0))) <= B \/ ring = [].
Proof.
  intros Hring. destruct ring as [| p ring]; [now right | left].
  unfold within in Hring. rewrite List.Forall_forall in Hring.
  apply (Hring (List.last (p :: ring) (mkPoint 0 0))).
  destruct (exists_last (l := p :: ring)) as (l' & a & Heq); [discriminate |].
  rewrite Heq, last_last. apply in_or_app. right. left. reflexivity.
Qed.

Lemma signedArea_shoelace B ring :
  within B ring ->
  4 * B * B * Z.of_nat (length ring) < 2 ^ 53 ->
  signedArea ring = shoelace ring.
Proof.
  intros Hring Hb. destruct (within_last B ring Hring) as [Hlast | ->]; [| reflexivity].
  unfold signedArea, shoelace.
  rewrite (signedArea_loop_exact B) by (assumption || lia). lia.
Qed.

Lemma last_cons p ring q : List.last (p :: ring) q = List.last ring p.
Proof.
  revert p q. induction ring as [| r ring IH]; intros p q; [reflexivity |].
  change (List.last (r :: ring) q = List.last (r :: ring) p).
  now rewrite (IH r q), (IH r p).
Qed.

Lemma area_term_same p : area_term p p = 0.
Proof. unfold area_term. lia. Qed.

Lemma area_term_swap p q : area_term p q = - area_term q p.
Proof. unfold area_term. lia. Qed.

Lemma path_sum_app ring1 : forall prev ring2,
  path_sum prev (ring1 ++ ring2)
  = path_sum prev ring1 + path_sum (List.last ring1 prev) ring2.
Proof.
  induction ring1 as [| p ring1 IH]; intros prev ring2; cbn [app path_sum].
  - reflexivity.
  - rewrite IH, last_cons. lia.
Qed.

(** A path walked backwards. *)
Lemma path_sum_rev ring : forall prev,
  path_sum (List.last ring prev) (rev ring ++ [prev]) = - path_sum prev ring.
Proof.
  induction ring as [| p ring IH]; intros prev.
  - cbn. rewrite area_term_same. lia.
  - rewrite last_cons. cbn [rev path_sum].
    rewrite path_sum_app, IH, last_last. cbn [path_sum].
    rewrite (area_term_swap prev p). lia.
Qed.

(** Starting a path from its own first point adds nothing. *)
Lemma path_sum_head ring q :
  path_sum q ring = area_term q (hd q ring) + path_sum (hd q ring) ring.
Proof.
  destruct ring as [| p ring]; cbn.
  - rewrite area_term_same. lia.
  - rewrite area_term_same. lia.
Qed.

Lemma hd_rev_last ring p : hd p (rev ring ++ [p]) = List.last ring p.
Proof.
  induction ring as [| r ring IH] using rev_ind; [reflexivity |].
  rewrite rev_app_distr, last_last. reflexivity.
Qed.

Lemma last_translate dx dy ring : forall p,
  List.last (List.map (translate dx dy) ring) (translate dx dy p)
  = translate dx dy (List.last ring p).
Proof.
  induction ring as [| r ring IH]; intros p; [reflexivity |].
  cbn [List.map]. rewrite !last_cons. apply IH.
Qed.

Lemma path_sum_translate dx dy ring : forall prev,
  path_sum (translate dx dy prev) (List.map (translate dx dy) ring)
  = path_sum prev ring + 2 * dy * (x prev - x (List.last ring prev)).
Proof.
  induction ring as [| p ring IH]; intros prev; cbn [List.map path_sum].
  - cbn. lia.
  - rewrite IH, last_cons. unfold area_term, translate. cbn. lia.
Qed.

Lemma shoelace_rev ring : shoelace (rev ring) = - shoelace ring.
Proof.
  destruct ring as [| a r]; [reflexivity |].
  unfold shoelace. cbn [rev]. rewrite last_last, last_cons.
  rewrite (path_sum_head (rev r ++ [a]) a), hd_rev_last, path_sum_rev.
  cbn [path_sum]. rewrite (area_term_swap a (List.last r a)). lia.
Qed.

Lemma shoelace_translate dx dy ring :
  shoelace (List.map (translate dx dy) ring) = shoelace ring.
Proof.
  destruct ring as [| a r]; [reflexivity |].
  unfold shoelace. cbn [List.map]. rewrite !last_cons.
  rewrite last_translate.
  change (translate dx dy a :: List.map (translate dx dy) r)
    with (List.map (translate dx dy) (a :: r)).
  rewrite path_sum_translate, last_cons. lia.
Qed.

Lemma shoelace_closed p0 (rest : list Point) :
  shoelace ((p0 :: rest) ++ [p0]) = shoelace (p0 :: rest).
Proof.
  unfold shoelace. rewrite last_last, last_cons.
  cbn [app path_sum]. rewrite path_sum_app, area_term_same. cbn [path_sum]. lia.
Qed.

(** The two summands of a ring of two points are opposite doubles, and the
    summand of a ring of one point is zero: nothing is lost to rounding. *)
Lemma signedArea_short ring :
  (length ring <= 2)%nat -> signedArea ring = 0.
Proof.
  intros Hlen. destruct ring as [| a [| b [| c r]]]; cbn in Hlen; [| | | lia];
    cbv [signedArea signedArea_loop List.last].
  - reflexivity.
  - unfold number_sub. rewrite Z.sub_diag, round_double_0.
    unfold number_mul. rewrite Z.mul_0_l, round_double_0. reflexivity.
  - rewrite (number_sub_swap (x a) (x b)), number_mul_opp_l.
    rewrite (number_add_comm (y b) (y a)).
    set (t := number_mul (number_sub (x b) (x a)) (number_add (y a) (y b))).
    assert (Ht : number_add 0 t = t).
    { unfold number_add, t, number_mul. cbn [Z.add]. apply round_double_idem. }
    rewrite Ht. unfold number_add at 1. rewrite Z.add_opp_diag_r. reflexivity.
Qed.

End SignedArea.

(** X19: as long as the coordinates are small enough, magnitudes up to [B]
    with [4 * B^2 * length < 2^53], no product and no partial sum of
    [signedArea] is rounded, and the result is the exact sum of the shoelace
    formula. *)
Theorem signedArea_exact (B : Z) (ring : list Point) :
  within B ring ->
  4 * B * B * Z.of_nat (length ring) < 2 ^ 53 ->
  signedArea ring = shoelace ring.
Proof. apply signedArea_shoelace. Qed.

Lemma signedArea_exact_witness :
  signedArea [mkPoint 0 0; mkPoint 4096 0; mkPoint 4096 4096; mkPoint 0 4096]
  = shoelace [mkPoint 0 0; mkPoint 4096 0; mkPoint 4096 4096; mkPoint 0 4096].
Proof.
  apply (signedArea_exact 4096).
  - repeat constructor; cbn; lia.
  - cbn. lia.
Defined.

(** Beyond that bound the sum is rounded.  The three points below lie on a
    line through the origin, and the exact sum over the closed ring is 0;
    the products pass 2^53 and the computed area is 128. *)
Example signedArea_rounded :
  let ring := [mkPoint 0 0; mkPoint 513962566 417773027;
               mkPoint 1027925132 835546054; mkPoint 0 0] in
  shoelace ring = 0 /\ signedArea ring = 128.
Proof. split; vm_compute; reflexivity. Qed.

(** Rounding depends on the order of the summands: on the ring below, whose
    points a tile can hold, the area of the reversed ring is not the
    opposite of the area. *)
Example signedArea_rev_rounded :
  let ring := [mkPoint 695425564 323946139; mkPoint 847876999 103694312;
               mkPoint 155555737 202142728] in
  signedArea ring = -137476420533768672
  /\ signedArea (rev ring) = 137476420533768704.
Proof. split; vm_compute; reflexivity. Qed.

(** X1: walking a ring the other way round negates its signed area, as long
    as the coordinates are small enough for the sum to be computed without
    rounding: magnitudes up to [B] with [4 * B^2 * length < 2^53]. *)
Theorem signedArea_rev (B : Z) (ring : list Point) :
  within B ring ->
  4 * B * B * Z.of_nat (length ring) < 2 ^ 53 ->
  signedArea (rev ring) = - signedArea ring.
Proof.
  intros Hring Hb.
  rewrite (signedArea_shoelace B ring), (signedArea_shoelace B (rev ring));
    try assumption.
  - apply shoelace_rev.
  - now apply Forall_rev.
  - now rewrite length_rev.
Qed.

Lemma signedArea_rev_witness :
  signedArea (rev [mkPoint 0 0; mkPoint 4 0; mkPoint 4 3])
  = - signedArea [mkPoint 0 0; mkPoint 4 0; mkPoint 4 3].
Proof.
  apply (signedArea_rev 4).
  - repeat constructor; cbn; lia.
  - cbn. lia.
Defined.

(** X2: moving every point of a ring by the same vector leaves its signed
    area unchanged, as long as the coordinates before and after the move are
    small enough for the sums to be computed without rounding. *)
Theorem signedArea_translate (B dx dy : Z) (ring : list Point) :
  within B ring ->
  within B (List.map (translate dx dy) ring) ->
  4 * B * B * Z.of_nat (length ring) < 2 ^ 53 ->
  signedArea (List.map (translate dx dy) ring) = signedArea ring.
Proof.
  intros Hring Hmoved Hb.
  rewrite (signedArea_shoelace B ring),
    (signedArea_shoelace B (List.map (translate dx dy) ring)); try assumption.
  - apply shoelace_translate.
  - now rewrite length_map.
Qed.

Lemma signedArea_translate_witness :
  signedArea (List.map (translate 10 (-2)) [mkPoint 0 0; mkPoint 4 0; mkPoint 4 3])
  = signedArea [mkPoint 0 0; mkPoint 4 0; mkPoint 4 3].
Proof.
  apply (signedArea_translate 14).
  - repeat constructor; cbn; lia.
  - repeat constructor; cbn; lia.
  - cbn. lia.
Defined.

(** X3: a ring of fewer than three points has a signed area of zero. *)
Theorem signedArea_degenerate (ring : list Point) :
  (length ring <= 2)%nat -> signedArea ring = 0.
Proof. apply signedArea_short. Qed.

Lemma signedArea_degenerate_witness :
  signedArea [mkPoint 3 4; mkPoint 10 (-2)] = 0.
Proof. apply signedArea_degenerate. cbn. lia. Defined.

(** X4: repeating the first point of a ring at its end, as ClosePath does,
    leaves the signed area unchanged, as long as the coordinates are small
    enough for the sum over the closed ring to be computed without
    rounding. *)
Theorem signedArea_closed (B : Z) (p0 : Point) (rest : list Point) :
  within B (p0 :: rest) ->
  4 * B * B * Z.of_nat (length ((p0 :: rest) ++ [p0])) < 2 ^ 53 ->
  signedArea ((p0 :: rest) ++ [p0]) = signedArea (p0 :: rest).
Proof.
  intros Hring Hb.
  assert (HB : 0 <= B).
  { apply Forall_cons_iff in Hring as [[Hx _] _]. lia. }
  rewrite (signedArea_shoelace B (p0 :: rest)),
    (signedArea_shoelace B ((p0 :: rest) ++ [p0])); try assumption.
  - apply shoelace_closed.
  - apply Forall_app. split; [exact Hring |].
    apply Forall_cons_iff in Hring as [Hp _]. now repeat constructor.
  - rewrite length_app in Hb. cbn [length] in *. nia.
Qed.

Lemma signedArea_closed_witness :
  signedArea ([mkPoint 0 0; mkPoint 4 0; mkPoint 4 3] ++ [mkPoint 0 0])
  = signedArea [mkPoint 0 0; mkPoint 4 0; mkPoint 4 3].
Proof.
  apply (signedArea_closed 4).
  - repeat constructor; cbn; lia.
  - cbn. lia.
Defined.

(** ** Polygons *)

Section RingFacts.

Lemma classifyRings_spec (rings : list (list Point)) :
  (2 <= length rings)%nat -> classifyRings rings = spec_polygons rings.
Proof.
  intros Hlen. unfold classifyRings.
  destruct (Nat.leb_spec (length rings) 1) as [Hle | _]; [lia |].
  apply (classify_loop_closed rings []).
Qed.

Lemma spec_polygons_length (rings : list (list Point)) :
  length (spec_polygons rings)
  = length (List.filter (fun ring => 0 <? signedArea ring) rings).
Proof.
  induction rings as [| ring rings IH]; cbn; [reflexivity |].
  destruct (0 <? signedArea ring); cbn; now rewrite IH.
Qed.

End RingFacts.

(** X5: on two rings or more, [classifyRings] returns as many polygons as the
    input has rings of positive signed area, the signed area being the
    number that [signedArea] computes, rounding included. *)
Theorem classifyRings_polygon_count (rings : list (list Point)) :
  (2 <= length rings)%nat ->
  length (classifyRings rings)
  = length (List.filter (fun ring => 0 <? signedArea ring) rings).
Proof.
  intros Hlen. rewrite classifyRings_spec by exact Hlen. apply spec_polygons_length.
Qed.

Lemma classifyRings_polygon_count_witness :
  length (classifyRings
            [[mkPoint 0 0; mkPoint 4 0; mkPoint 4 4; mkPoint 0 4; mkPoint 0 0];
             [mkPoint 1 1; mkPoint 1 2; mkPoint 2 2; mkPoint 2 1; mkPoint 1 1];
             [mkPoint 9 9; mkPoint 10 9; mkPoint 10 10; mkPoint 9 9]])
  = 2%nat.
Proof.
  refine (eq_trans (classifyRings_polygon_count _ _) _).
  - cbn. lia.
  - reflexivity.
Defined.

(** X6: on two rings or more, every ring that [classifyRings] keeps has at
    least three points. *)
Theorem classifyRings_keeps_proper_rings (rings polygon : list (list Point))
    (ring : list Point) :
  (2 <= length rings)%nat ->
  In polygon (classifyRings rings) -> In ring polygon -> (3 <= length ring)%nat.
Proof.
  intros Hlen Hp Hr. rewrite classifyRings_spec in Hp by exact Hlen.
  pose proof (spec_polygons_shape rings) as Hshape.
  rewrite List.Forall_forall in Hshape. specialize (Hshape _ Hp).
  destruct polygon as [| outer holes]; [contradiction |]. destruct Hshape as [Hout Hholes].
  assert (Hnz : signedArea ring <> 0).
  { destruct Hr as [<- | Hr]; [lia |].
    rewrite List.Forall_forall in Hholes. specialize (Hholes _ Hr). lia. }
  destruct (Nat.le_gt_cases (length ring) 2) as [Hshort | Hlong]; [| lia].
  now apply signedArea_short in Hshort.
Qed.

Lemma classifyRings_keeps_proper_rings_witness :
  (3 <= length [mkPoint 9 9; mkPoint 10 9; mkPoint 10 10; mkPoint 9 9])%nat.
Proof.
  apply (classifyRings_keeps_proper_rings
           [[mkPoint 0 0; mkPoint 4 0; mkPoint 4 4; mkPoint 0 4; mkPoint 0 0];
            [mkPoint 9 9; mkPoint 10 9; mkPoint 10 10; mkPoint 9 9]]
           [[mkPoint 9 9; mkPoint 10 9; mkPoint 10 10; mkPoint 9 9]]).
  - cbn. lia.
  - vm_compute. right. left. reflexivity.
  - left. reflexivity.
Defined.

(** ** More reasoning about loops *)

Ltac run H :=
  unfold bind, ret, throw, get_pos, set_pos, get_len, lift in H;
  repeat (case_match; simplify_eq).

Lemma bind_Throw {A B} (m : M A) (k : A -> M B) buf pos e pos' :
  bind m k buf pos = Throw e pos' ->
  m buf pos = Throw e pos'
  \/ exists a p, m buf pos = Ret a p /\ k a buf p = Throw e pos'.
Proof.
  unfold bind. destruct (m buf pos) as [a p | e1 p |]; [eauto | | discriminate].
  intros [= <- <-]. now left.
Qed.

Lemma while_lt_exit {St : Type} (body : nat -> St -> M St) buf end_ :
  forall fuel s pos s' pos',
    while_lt fuel end_ body s buf pos = Ret s' pos' -> end_ <= pos'.
Proof.
  induction fuel as [| n IH]; intros s pos s' pos'; cbn.
  - destruct (Z.ltb_spec pos end_) as [Hlt | Hge]; [discriminate | intros [= _ <-]; lia].
  - destruct (Z.ltb_spec pos end_) as [Hlt | Hge]; [| intros [= _ <-]; lia].
    intros H. apply bind_Ret in H as (s1 & p1 & _ & H). eapply IH, H.
Qed.

Lemma while_lt_invariant_pos {St : Type} (P : St -> Z -> Prop)
    (body : nat -> St -> M St) buf end_ :
  (forall n s pos s' pos', P s pos -> body n s buf pos = Ret s' pos' -> P s' pos') ->
  forall fuel s pos s' pos',
    P s pos -> while_lt fuel end_ body s buf pos = Ret s' pos' -> P s' pos'.
Proof.
  intros Hbody. induction fuel as [| n IH]; intros s pos s' pos' HP; cbn.
  - destruct (pos <? end_); [discriminate | intros [= <- <-]; exact HP].
  - destruct (pos <? end_); [| intros [= <- <-]; exact HP].
    intros Hb. apply bind_Ret in Hb as (s1 & p1 & Hs1 & Hrest).
    eapply IH; [| exact Hrest]. eapply Hbody; eauto.
Qed.

Lemma while_lt_Throw {St : Type} (P : St -> Prop) (E : exn -> Prop)
    (body : nat -> St -> M St) buf end_ :
  (forall n s pos s' pos', P s -> body n s buf pos = Ret s' pos' -> P s') ->
  (forall n s pos e pos', P s -> body n s buf pos = Throw e pos' -> E e) ->
  forall fuel s pos e pos',
    P s -> while_lt fuel end_ body s buf pos = Throw e pos' -> E e.
Proof.
  intros Hret Hthrow. induction fuel as [| n IH]; intros s pos e pos' HP; cbn.
  - destruct (pos <? end_); discriminate.
  - destruct (pos <? end_); [| discriminate].
    intros H. apply bind_Throw in H as [H | (s1 & p1 & Hs1 & H)].
    + eapply Hthrow; eauto.
    + eapply IH; [| exact H]. eapply Hret; eauto.
Qed.

Lemma while_lt_agree {S1 S2 : Type} (Rl : S1 -> S2 -> Prop)
    (body1 : nat -> S1 -> M S1) (body2 : nat -> S2 -> M S2) buf end_ :
  (forall n s1 s2 pos,
      Rl s1 s2 -> agree Rl (body1 n s1 buf pos) (body2 n s2 buf pos)) ->
  forall fuel s1 s2 pos,
    Rl s1 s2 ->
    agree Rl (while_lt fuel end_ body1 s1 buf pos)
      (while_lt fuel end_ body2 s2 buf pos).
Proof.
  intros Hbody. induction fuel as [| n IH]; intros s1 s2 pos HR; cbn.
  - destruct (pos <? end_); cbn; auto.
  - destruct (pos <? end_); [| cbn; auto].
    specialize (Hbody n s1 s2 pos HR). unfold bind, agree in *.
    destruct (body1 n s1 buf pos) as [a1 p1 | e1 p1 |],
             (body2 n s2 buf pos) as [a2 p2 | e2 p2 |]; try contradiction; auto.
    destruct Hbody as [<- HR']. now apply IH.
Qed.

(** ** Lines and bounds *)

Section Geometry.
Context {R : BinaryReader}.

Lemma push_open_nonempty (ls : list (list Point)) (o : option (list Point)) :
  Forall (fun l => l <> []) ls -> (forall l, o = Some l -> l <> []) ->
  Forall (fun l => l <> []) (push_open ls o).
Proof.
  intros Hls Ho. destruct o as [l |]; cbn; [| exact Hls].
  apply Forall_app. split; [exact Hls |]. constructor; [now apply Ho | constructor].
Qed.

Lemma loadGeometry_body_nonempty n s buf pos s' pos' :
  lines_nonempty s ->
  loadGeometry_body n s buf pos = Ret s' pos' -> lines_nonempty s'.
Proof.
  intros [Hls Hl] H. unfold loadGeometry_body, reader_uint32, reader_sint32 in H.
  run H. all: unfold lines_nonempty; cbn [g_lines g_line].
  all: split; [first [exact Hls | now apply push_open_nonempty] |].
  all: intros l' E;
    first [ now apply Hl
          | destruct (g_line s) as [l1 |]; simplify_eq/=; now destruct l1
          | simplify_eq/=; done ].
Qed.

Lemma loadGeometry_body_wire_only n s buf pos e pos' :
  lines_nonempty s ->
  loadGeometry_body n s buf pos = Throw e pos' -> exists msg, e = WireError msg.
Proof.
  intros [Hls Hl] H. unfold loadGeometry_body, reader_uint32, reader_sint32 in H.
  run H. all: eauto.
  all: exfalso; eapply Hl; eauto.
Qed.

Lemma loadGeometry_Ret_nonempty fuel f buf pos lines_ pos' :
  loadGeometry fuel f buf pos = Ret lines_ pos' ->
  Forall (fun l => l <> []) lines_.
Proof.
  unfold loadGeometry. intros H.
  apply bind_Ret in H as ([] & p0 & _ & H).
  apply bind_Ret in H as (n & p1 & _ & H).
  apply bind_Ret in H as (p & p2 & _ & H).
  apply bind_Ret in H as (s & p3 & Hloop & H). injection H as <- _.
  assert (Hs : lines_nonempty s).
  { revert Hloop. apply (while_lt_invariant lines_nonempty).
    - intros ? ? ? ? ? ?. now apply loadGeometry_body_nonempty.
    - split; [constructor | discriminate]. }
  destruct Hs. now apply push_open_nonempty.
Qed.

Lemma loadGeometry_Throw_wire fuel f buf pos e pos' :
  loadGeometry fuel f buf pos = Throw e pos' -> exists msg, e = WireError msg.
Proof.
  unfold loadGeometry. intros H.
  apply bind_Throw in H as [H | ([] & p0 & _ & H)]; [discriminate |].
  apply bind_Throw in H as [H | (n & p1 & _ & H)];
    [now apply wire_only_lift in H |].
  apply bind_Throw in H as [H | (p & p2 & _ & H)]; [discriminate |].
  apply bind_Throw in H as [H | (s & p3 & _ & H)]; [| discriminate].
  revert H.
  apply (while_lt_Throw lines_nonempty (fun e => exists msg, e = WireError msg)).
  - intros ? ? ? ? ? ?. now apply loadGeometry_body_nonempty.
  - intros ? ? ? ? ? ?. now apply loadGeometry_body_wire_only.
  - split; [constructor | discriminate].
Qed.

Lemma inside_extend x' y' (b : bbox_state) (p : Point) :
  inside (box_of b) p ->
  inside (Z.min x' (xMin b), Z.min y' (yMin b), Z.max x' (xMax b), Z.max y' (yMax b)) p.
Proof. unfold inside, box_of. lia. Qed.

Lemma inside_new x' y' (b : bbox_state) :
  inside (Z.min x' (xMin b), Z.min y' (yMin b), Z.max x' (xMax b), Z.max y' (yMax b))
    (mkPoint x' y').
Proof. unfold inside. cbn. lia. Qed.

Lemma line_extend x' y' (b : bbox_state) (l : list Point) :
  Forall (inside (box_of b)) l ->
  Forall (inside (Z.min x' (xMin b), Z.min y' (yMin b),
                  Z.max x' (xMax b), Z.max y' (yMax b))) l.
Proof.
  induction 1 as [| p l Hp _ IH]; constructor; [now apply inside_extend | exact IH].
Qed.

Lemma lines_extend x' y' (b : bbox_state) (ls : list (list Point)) :
  Forall (Forall (inside (box_of b))) ls ->
  Forall (Forall (inside (Z.min x' (xMin b), Z.min y' (yMin b),
                          Z.max x' (xMax b), Z.max y' (yMax b)))) ls.
Proof.
  induction 1 as [| l ls Hl _ IH]; constructor; [now apply line_extend | exact IH].
Qed.

Lemma inside_copy box (p : Point) :
  inside box p -> inside box (mkPoint (x p) (y p)).
Proof. now destruct p. Qed.

Ltac inner :=
  match goal with
  | |- context [match rd_uint32 ?b ?p with _ => _ end] =>
      destruct (rd_uint32 b p) eqn:?
  | |- context [match rd_sint32 ?b ?p with _ => _ end] =>
      destruct (rd_sint32 b p) eqn:?
  | |- context [match g_line ?s with _ => _ end] =>
      destruct (g_line s) as [[| ? ?] |] eqn:?
  | |- context [if ?c then _ else _] =>
      lazymatch c with
      | context [match _ with _ => _ end] => fail
      | _ => destruct c eqn:?
      end
  end.

Lemma bodies_in_step n s b buf pos :
  in_step s b /\ lines_nonempty s ->
  agree (fun s' b' => in_step s' b' /\ lines_nonempty s')
    (loadGeometry_body n s buf pos) (bbox_body n b buf pos).
Proof.
  intros [(Hc & Hcmd & Hx & Hy & Hls & Hl) [Hne1 Hne2]].
  unfold loadGeometry_body, bbox_body, reader_uint32, reader_sint32,
    bind, ret, throw, lift.
  rewrite <- Hc.
  destruct (Z.leb_spec (g_length s) 0) as [Hle | Hgt];
    [| rewrite <- (Hcmd Hgt)]; cbv beta iota zeta.
  all: repeat (inner; cbv beta iota zeta).
  all: unfold agree; try done.
  all: try (exfalso; eapply Hne2; eauto; fail).
  all: split; [reflexivity |]; split.
  all: unfold in_step, lines_nonempty, box_of;
    cbn [g_length g_command g_x g_y g_lines g_line b_count b_command b_x b_y
         xMin xMax yMin yMax].
  all: rewrite <- ?Hx, <- ?Hy.
  all: repeat split; try done; try lia.
  all: try (now apply push_open_nonempty).
  all: try (intros l' E; simplify_eq/=; done).
  all: try (apply lines_extend; exact Hls).
  all: try (cbn [push_open]; apply Forall_app; split;
            [apply lines_extend, Hls
            | constructor; [apply line_extend; now apply Hl | constructor]]).
  all: intros l' E; cbn [option_map] in E; injection E as <-.
  all: try specialize (Hl _ eq_refl).
  all: repeat (progress rewrite ?Forall_app, ?Forall_cons, ?Forall_nil in * ).
  all: repeat match goal with |- _ /\ _ => split end; try tauto.
  all: first [ apply inside_new
             | apply inside_copy; tauto
             | apply inside_extend; tauto
             | apply line_extend; tauto ].
Qed.
Lemma loadGeometry_bbox_in_step fuel f buf pos pos' :
  agree (fun lines_ box => Forall (Forall (inside box)) lines_)
    (loadGeometry fuel f buf pos) (bbox fuel f buf pos').
Proof.
  unfold loadGeometry, bbox, bind at 1 5, set_pos.
  unfold bind at 1 4, reader_uint32, lift.
  destruct (rd_uint32 buf (geometryOffset f)) as [n p | msg p]; [| now cbn].
  unfold bind at 1 3, get_pos. unfold bind.
  pose proof (while_lt_agree (fun s b => in_step s b /\ lines_nonempty s)
                loadGeometry_body bbox_body buf (n + p)
                (fun k s b q H => bodies_in_step k s b buf q H) fuel
                (mkGeometry 1 0 0 0 [] None)
                (mkBbox 0 0 0 0 MAX_SAFE_INTEGER MIN_SAFE_INTEGER
                   MAX_SAFE_INTEGER MIN_SAFE_INTEGER) p) as Hloop.
  assert (Hinit : in_step (mkGeometry 1 0 0 0 [] None)
                    (mkBbox 0 0 0 0 MAX_SAFE_INTEGER MIN_SAFE_INTEGER
                       MAX_SAFE_INTEGER MIN_SAFE_INTEGER)
                  /\ lines_nonempty (mkGeometry 1 0 0 0 [] None)).
  { unfold in_step, lines_nonempty. cbn.
    repeat match goal with |- _ /\ _ => split end;
      try reflexivity; try lia; try constructor; discriminate. }
  specialize (Hloop Hinit). clear Hinit.
  destruct (while_lt fuel (n + p) loadGeometry_body _ buf p) as [s q | e q |],
           (while_lt fuel (n + p) bbox_body _ buf p) as [b q' | e' q' |];
    cbn [agree] in Hloop; try contradiction; [| exact Hloop | exact I].
  destruct Hloop as [<- [(_ & _ & _ & _ & Hls & Hl) _]].
  unfold ret. cbn [agree]. split; [reflexivity |].
  fold (box_of b). destruct (g_line s) as [l |]; cbn [push_open]; [| exact Hls].
  apply Forall_app. split; [exact Hls |]. constructor; [now apply Hl | constructor].
Qed.

End Geometry.

(** X7: the lines returned by [loadGeometry] all have at least one point. *)
Theorem loadGeometry_lines_nonempty {R : BinaryReader} fuel (f : Feature) buf pos
    lines_ pos' :
  loadGeometry fuel f buf pos = Ret lines_ pos' ->
  Forall (fun l => l <> []) lines_.
Proof. apply loadGeometry_Ret_nonempty. Qed.

Lemma loadGeometry_lines_nonempty_witness :
  Forall (fun l => l <> []) [[mkPoint 25 17]].
Proof.
  apply (loadGeometry_lines_nonempty (R := Wire.reader) 50
           (mkFeature (Some "5"%string) POINT obj_empty 18 4096) Tiles.point_tile 0 _ 22).
  vm_compute. reflexivity.
Defined.

(** X8: [loadGeometry] raises nothing but the errors of the wire reader: the
    first point that ClosePath reads from the open line is always there. *)
Theorem loadGeometry_raises_wire_errors {R : BinaryReader} fuel (f : Feature)
    buf pos e pos' :
  loadGeometry fuel f buf pos = Throw e pos' -> exists msg, e = WireError msg.
Proof. apply loadGeometry_Throw_wire. Qed.

Lemma loadGeometry_raises_wire_errors_witness :
  exists msg, WireError "premature EOF" = WireError msg.
Proof.
  apply (loadGeometry_raises_wire_errors (R := Wire.reader) 50
           (mkFeature None UNKNOWN obj_empty 4 0) Tiles.truncated_feature_tile 0 _ 6).
  vm_compute. reflexivity.
Defined.

(** X9: [bbox] and [loadGeometry] read the geometry in step: allowed the
    same iterations, both return, leaving the cursor at the same place, or
    both raise the same error; and when they return, every point of every
    line of [loadGeometry] lies within the bounds of [bbox]. *)
Theorem bbox_contains_geometry {R : BinaryReader} fuel (f : Feature) buf pos pos' :
  agree (fun lines_ box => Forall (Forall (inside box)) lines_)
    (loadGeometry fuel f buf pos) (bbox fuel f buf pos').
Proof. apply loadGeometry_bbox_in_step. Qed.

(** ** Bounds, points and GeoJSON *)

Section Accessing.
Context {R : BinaryReader}.

Lemma bbox_body_shape n b buf pos b' pos' :
  box_shape (box_of b) -> bbox_body n b buf pos = Ret b' pos' -> box_shape (box_of b').
Proof.
  intros Hb H. unfold bbox_body, reader_uint32, reader_sint32 in H.
  run H. all: unfold box_shape, box_of in *; cbn [xMin xMax yMin yMax] in *.
  all: try exact Hb.
  all: right; lia.
Qed.

Lemma defined_points_firsts (lines_ : list (list Point)) :
  Forall (fun l => l <> []) lines_ ->
  defined_points (List.map (fun points => index points 0) lines_)
  = Some (List.map (hd (mkPoint 0 0)) lines_).
Proof.
  induction 1 as [| l ls Hl _ IH]; [reflexivity |].
  destruct l as [| p l]; [contradiction |]. cbn [List.map].
  change (index (p :: l) 0) with (Some p). cbn [defined_points]. now rewrite IH.
Qed.

Lemma firsts_of_lines (lines_ : list (list Point)) :
  Forall (fun l => l <> []) lines_ ->
  Forall2 (fun line point => exists rest, line = point :: rest)
    lines_ (List.map (hd (mkPoint 0 0)) lines_).
Proof.
  induction 1 as [| l ls Hl _ IH]; [constructor |].
  destruct l as [| p l]; [contradiction |]. constructor; [| exact IH]. now exists l.
Qed.

End Accessing.

(** X10: the bounds returned by [bbox] are either the ones it starts from,
    [MAX_SAFE_INTEGER] for the minima and [MIN_SAFE_INTEGER] for the maxima
    (no MoveTo or LineTo was decoded), or ordered: the minimum of each axis
    is at most its maximum. *)
Theorem bbox_untouched_or_ordered {R : BinaryReader} fuel (f : Feature) buf pos box pos' :
  bbox fuel f buf pos = Ret box pos' -> box_shape box.
Proof.
  unfold bbox. intros H.
  apply bind_Ret in H as ([] & p0 & _ & H).
  apply bind_Ret in H as (n & p1 & _ & H).
  apply bind_Ret in H as (p & p2 & _ & H).
  apply bind_Ret in H as (b & p3 & Hloop & H). injection H as <- _.
  change (box_shape (box_of b)). revert Hloop.
  apply (while_lt_invariant (fun b => box_shape (box_of b))).
  - intros ? ? ? ? ? ?. now apply bbox_body_shape.
  - now left.
Qed.

Lemma bbox_untouched_or_ordered_witness : box_shape (25, 17, 25, 17).
Proof.
  apply (bbox_untouched_or_ordered (R := Wire.reader) 50
           (mkFeature (Some "5"%string) POINT obj_empty 18 4096) Tiles.point_tile 0 _ 22).
  vm_compute. reflexivity.
Defined.

(** X11: on a feature of type POINT, what [asPoints] returns is not [null]:
    it is the first point of every line of [loadGeometry], in order, and
    none of the points is [undefined]. *)
Theorem asPoints_first_points {R : BinaryReader} fuel (f : Feature) buf pos r pos' :
  feature_type f = POINT ->
  asPoints fuel f buf pos = Ret r pos' ->
  exists lines_ points,
    loadGeometry fuel f buf pos = Ret lines_ pos'
    /\ r = Some points
    /\ Forall2 (fun l pt => exists p rest, l = p :: rest /\ pt = Some p) lines_ points.
Proof.
  intros Hty H. unfold asPoints in H.
  apply bind_Ret in H as (lines_ & p & Hload & H). rewrite Hty in H.
  injection H as <- <-. do 2 eexists. split; [exact Hload |]. split; [reflexivity |].
  apply loadGeometry_Ret_nonempty in Hload.
  induction Hload as [| l ls Hl _ IH]; cbn [List.map]; constructor; [| exact IH].
  destruct l as [| q l]; [contradiction | eauto].
Qed.

Lemma asPoints_first_points_witness :
  exists lines_ points,
    loadGeometry (R := Wire.reader) 50 (mkFeature (Some "5"%string) POINT obj_empty 18 4096)
      Tiles.point_tile 0 = Ret lines_ 22
    /\ Some [Some (mkPoint 25 17)] = Some points
    /\ Forall2 (fun l pt => exists p rest, l = p :: rest /\ pt = Some p) lines_ points.
Proof.
  apply (asPoints_first_points (R := Wire.reader) 50
           (mkFeature (Some "5"%string) POINT obj_empty 18 4096) Tiles.point_tile 0).
  - reflexivity.
  - vm_compute. reflexivity.
Defined.

Section GeoJSONFacts.
Context {R : BinaryReader}.
Variable number : Type.
Variable project_point : Z -> number -> number -> number -> Point -> number * number.

Lemma project_length extent x_ y_ zoom points :
  length (project number project_point extent x_ y_ zoom points) = length points.
Proof. unfold project. apply length_map. Qed.

Lemma toGeoJSON_of_switch fuel f x_ y_ zoom buf pos type cs p :
  toGeoJSON_switch number project_point fuel f x_ y_ zoom buf pos = Ret (type, Some cs) p ->
  toGeoJSON number project_point fuel f x_ y_ zoom buf pos
  = Ret (mkGeoJSON number (geometry_name type (length cs))
           (match cs with [c] => c | _ => CArray number cs end)
           (properties f) (feature_id f)) p.
Proof.
  intros H. unfold toGeoJSON, bind. rewrite H.
  destruct cs as [| c [| c' cs]]; reflexivity.
Qed.

End GeoJSONFacts.

Ltac by_type :=
  repeat match goal with
         | |- context [feature_type ?f =? ?c] =>
             destruct (Z.eqb_spec (feature_type f) c);
             try (unfold POINT, LINESTRING, POLYGON in *; lia)
         end.

(** X12: on a feature of type POINT, LINESTRING or POLYGON, [toGeoJSON]
    returns exactly when [loadGeometry] does and raises what it raises,
    never a [TypeError].  The GeoJSON carries the properties and the id of
    the feature.  Its parts are the projected first points of the lines for
    a POINT, the projected lines for a LINESTRING, and for a POLYGON the
    polygons of [classifyRings], each the list of its projected rings.  The
    geometry is named after the type and the number of parts: one part
    gives "Point", "LineString" or "Polygon" with that part as coordinates,
    any other number, zero included, the "Multi" name with the list of the
    parts. *)
Theorem toGeoJSON_known_type {R : BinaryReader} (number : Type)
    (project_point : Z -> number -> number -> number -> Point -> number * number)
    fuel (f : Feature) (x_ y_ zoom : number) buf pos :
  feature_type f = POINT \/ feature_type f = LINESTRING \/ feature_type f = POLYGON ->
  (forall lines_ pos',
      loadGeometry fuel f buf pos = Ret lines_ pos' ->
      exists parts,
        (if feature_type f =? POINT then
           exists firsts,
             Forall2 (fun line point => exists rest, line = point :: rest) lines_ firsts
             /\ parts = project number project_point (feature_extent f) x_ y_ zoom firsts
         else if feature_type f =? LINESTRING then
           parts = List.map (fun line =>
                               CArray number
                                 (project number project_point (feature_extent f)
                                    x_ y_ zoom line))
                     lines_
         else
           parts = List.map (fun rings =>
                               CArray number
                                 (List.map
                                    (fun ring =>
                                       CArray number
                                         (project number project_point
                                            (feature_extent f) x_ y_ zoom ring))
                                    rings))
                     (classifyRings lines_))
        /\ toGeoJSON number project_point fuel f x_ y_ zoom buf pos
           = Ret (mkGeoJSON number
                    (if feature_type f =? POINT then geometry_name "Point" (length lines_)
                     else if feature_type f =? LINESTRING
                          then geometry_name "LineString" (length lines_)
                          else geometry_name "Polygon" (length (classifyRings lines_)))
                    (match parts with [c] => c | _ => CArray number parts end)
                    (properties f) (feature_id f)) pos')
  /\ (forall e pos',
        loadGeometry fuel f buf pos = Throw e pos' ->
        toGeoJSON number project_point fuel f x_ y_ zoom buf pos = Throw e pos')
  /\ (forall e pos',
        toGeoJSON number project_point fuel f x_ y_ zoom buf pos = Throw e pos' ->
        exists msg, e = WireError msg).
Proof.
  intros Hty.
  assert (Hret : forall lines_ pos',
             loadGeometry fuel f buf pos = Ret lines_ pos' ->
             exists type parts,
               toGeoJSON_switch number project_point fuel f x_ y_ zoom buf pos
               = Ret (type, Some parts) pos'
               /\ geometry_name type (length parts)
                  = (if feature_type f =? POINT then geometry_name "Point" (length lines_)
                     else if feature_type f =? LINESTRING
                          then geometry_name "LineString" (length lines_)
                          else geometry_name "Polygon" (length (classifyRings lines_)))
               /\ (if feature_type f =? POINT then
                     exists firsts,
                       Forall2 (fun line point => exists rest, line = point :: rest)
                         lines_ firsts
                       /\ parts = project number project_point (feature_extent f)
                                    x_ y_ zoom firsts
                   else if feature_type f =? LINESTRING then
                     parts = List.map (fun line =>
                                         CArray number
                                           (project number project_point (feature_extent f)
                                              x_ y_ zoom line))
                               lines_
                   else
                     parts = List.map (fun rings =>
                                         CArray number
                                           (List.map
                                              (fun ring =>
                                                 CArray number
                                                   (project number project_point
                                                      (feature_extent f) x_ y_ zoom ring))
                                              rings))
                               (classifyRings lines_))).
  { intros lines_ pos' Hload.
    pose proof (loadGeometry_Ret_nonempty _ _ _ _ _ _ Hload) as Hne.
    unfold toGeoJSON_switch, asPoints, asLines, asPolygons.
    destruct Hty as [Hty | [Hty | Hty]]; by_type; unfold bind; rewrite Hload; unfold ret.
    - rewrite (defined_points_firsts _ Hne). do 2 eexists. split; [reflexivity |]. split.
      + now rewrite project_length, length_map.
      + eexists. split; [apply (firsts_of_lines _ Hne) | reflexivity].
    - do 2 eexists. split; [reflexivity |]. split; [now rewrite length_map | reflexivity].
    - do 2 eexists. split; [reflexivity |]. split; [now rewrite length_map | reflexivity]. }
  assert (Hthrow : forall e pos',
             loadGeometry fuel f buf pos = Throw e pos' ->
             toGeoJSON number project_point fuel f x_ y_ zoom buf pos = Throw e pos').
  { intros e pos' Hload.
    unfold toGeoJSON, toGeoJSON_switch, asPoints, asLines, asPolygons.
    destruct Hty as [Hty | [Hty | Hty]]; by_type; unfold bind; now rewrite Hload. }
  split; [| split; [exact Hthrow |]].
  - intros lines_ pos' Hload.
    destruct (Hret _ _ Hload) as (type & parts & Hsw & Hname & Hparts).
    exists parts. split; [exact Hparts |].
    rewrite <- Hname. eapply toGeoJSON_of_switch, Hsw.
  - intros e pos' H.
    destruct (loadGeometry fuel f buf pos) as [lines_ p | e' p |] eqn:Hload.
    + destruct (Hret _ _ eq_refl) as (type & parts & Hsw & _).
      rewrite (toGeoJSON_of_switch _ _ _ _ _ _ _ _ _ _ _ _ Hsw) in H. discriminate.
    + rewrite (Hthrow _ _ eq_refl) in H. injection H as <- _.
      eapply loadGeometry_Throw_wire, Hload.
    + unfold toGeoJSON, toGeoJSON_switch, asPoints, asLines, asPolygons in H.
      revert H.
      destruct Hty as [Hty | [Hty | Hty]]; by_type; unfold bind; rewrite Hload;
        discriminate.
Qed.

Lemma toGeoJSON_known_type_witness :
  exists parts,
    (exists firsts,
        Forall2 (fun line point => exists rest, line = point :: rest)
          [[mkPoint 25 17]] firsts
        /\ parts = project Z (fun _ _ _ _ p => (x p, y p)) 4096 0 0 0 firsts)
    /\ toGeoJSON (R := Wire.reader) Z (fun _ _ _ _ p => (x p, y p)) 50
         (mkFeature (Some "5"%string) POINT obj_empty 18 4096) 0 0 0 Tiles.point_tile 0
       = Ret (mkGeoJSON Z "Point"
                (match parts with [c] => c | _ => CArray Z parts end)
                obj_empty (Some "5"%string)) 22.
Proof.
  apply (proj1 (toGeoJSON_known_type (R := Wire.reader) Z (fun _ _ _ _ p => (x p, y p)) 50
                  (mkFeature (Some "5"%string) POINT obj_empty 18 4096) 0 0 0
                  Tiles.point_tile 0 (or_introl eq_refl)) [[mkPoint 25 17]] 22).
  vm_compute. reflexivity.
Defined.

(** ** Layers and features of a tile *)

Section Tables.
Context {R : BinaryReader}.

Lemma index_In {A} (a : list A) i v : index a i = Some v -> In v a.
Proof.
  unfold index. destruct (i <? 0); [discriminate |].
  intros H. apply list_elem_of_In. eapply list_elem_of_lookup_2, H.
Qed.

Lemma obj_set_from_tables (keys : list string) (values : list PropValues)
    props k v :
  (forall k' v', own props !! k' = Some v' -> from_tables keys values k' v') ->
  forall k' v',
    own (obj_set is_null_value props (property_key (index keys k)) (index values v))
      !! k' = Some v' ->
    from_tables keys values k' v'.
Proof.
  intros Hprops k' v'. unfold obj_set.
  destruct (_ && _); [destruct (is_null_value _); apply Hprops |].
  cbn [own]. rewrite lookup_insert. destruct (decide _) as [<- |]; [| apply Hprops].
  intros [= <-]. split.
  - destruct (index keys k) as [s |] eqn:Hk; cbn; [left; eapply index_In, Hk | now right].
  - destruct (index values v) as [pv |] eqn:Hv; [right | now left].
    exists pv. split; [reflexivity | eapply index_In, Hv].
Qed.

Lemma Feature_tags_body_from_tables keys values n props buf pos props' pos' :
  (forall k v, own props !! k = Some v -> from_tables keys values k v) ->
  Feature_tags_body keys values n props buf pos = Ret props' pos' ->
  forall k v, own props' !! k = Some v -> from_tables keys values k v.
Proof.
  intros Hprops H. unfold Feature_tags_body in H.
  apply bind_Ret in H as (k0 & p0 & _ & H). apply bind_Ret in H as (v0 & p1 & _ & H).
  injection H as <- _. now apply obj_set_from_tables.
Qed.

Lemma Feature_body_from_tables keys values n f buf pos f' pos' :
  (forall k v, own (properties f) !! k = Some v -> from_tables keys values k v) ->
  Feature_body keys values n f buf pos = Ret f' pos' ->
  (forall k v, own (properties f') !! k = Some v -> from_tables keys values k v)
  /\ feature_extent f' = feature_extent f.
Proof.
  intros Hprops H. unfold Feature_body in H.
  apply bind_Ret in H as ([fieldId wireType] & p0 & _ & H).
  repeat match type of H with
         | (if ?c then _ else _) _ _ = _ => destruct c
         end.
  - apply bind_Ret in H as (? & ? & _ & H). now injection H as <- _.
  - apply bind_Ret in H as (? & ? & _ & H). apply bind_Ret in H as (? & ? & _ & H).
    apply bind_Ret in H as (props & ? & Hloop & H). injection H as <- _.
    split; [| reflexivity]. cbn [properties set_properties]. revert Hloop.
    apply (while_lt_invariant
             (fun props => forall k v, own props !! k = Some v ->
                                       from_tables keys values k v)).
    + intros ? ? ? ? ? ?. now apply Feature_tags_body_from_tables.
    + exact Hprops.
  - apply bind_Ret in H as (? & ? & _ & H). now injection H as <- _.
  - apply bind_Ret in H as (? & ? & _ & H). apply bind_Ret in H as (? & ? & _ & H).
    now injection H as <- _.
  - now injection H as <- _.
Qed.

Lemma Feature_new_from_tables fuel end_ keys values extent buf pos f pos' :
  Feature_new fuel end_ keys values extent buf pos = Ret f pos' ->
  (forall k v, own (properties f) !! k = Some v -> from_tables keys values k v)
  /\ feature_extent f = extent.
Proof.
  unfold Feature_new.
  apply (while_lt_invariant
           (fun f => (forall k v, own (properties f) !! k = Some v ->
                                  from_tables keys values k v)
                     /\ feature_extent f = extent)).
  - intros n s p s' p' [Hs He] Hbody.
    destruct (Feature_body_from_tables keys values n s buf p s' p' Hs Hbody)
      as [Hs' He'].
    split; [exact Hs' | congruence].
  - split; [| reflexivity]. intros k v. unfold Feature_init, obj_empty. cbn [properties own].
    rewrite lookup_empty. discriminate.
Qed.

Lemma feature_Ret fuel l index_ buf pos f pos' :
  feature fuel l index_ buf pos = Ret f pos' ->
  exists offset end_ p,
    0 <= index_ < Z.of_nat (length (featureOffsets l))
    /\ featureOffsets l !! Z.to_nat index_ = Some offset
    /\ Feature_new fuel end_ (keys l) (values l) (layer_extent l) buf p = Ret f pos'.
Proof.
  intros H.
  destruct (Z_lt_ge_dec index_ 0) as [Hneg | Hpos];
    [rewrite feature_out_of_range in H by lia; discriminate |].
  destruct (Z_lt_ge_dec index_ (Z.of_nat (length (featureOffsets l)))) as [Hlt | Hge];
    [| rewrite feature_out_of_range in H by lia; discriminate].
  destruct (feature_in_range fuel l index_ buf pos ltac:(lia)) as (offset & Hoff & Heq).
  rewrite Heq in H. unfold Feature_at in H.
  apply bind_Ret in H as ([] & p0 & _ & H). apply bind_Ret in H as (n & p1 & _ & H).
  apply bind_Ret in H as (p & p2 & _ & H). eauto 10 with lia.
Qed.

End Tables.

(** X13: a decoded feature carries the extent of its layer. *)
Theorem feature_extent_of_layer {R : BinaryReader} fuel (l : Layer) index_ buf pos
    f pos' :
  feature fuel l index_ buf pos = Ret f pos' -> feature_extent f = layer_extent l.
Proof.
  intros H. apply feature_Ret in H as (offset & end_ & p & _ & _ & H).
  now apply Feature_new_from_tables in H.
Qed.

Lemma feature_extent_of_layer_witness :
  feature_extent (mkFeature (Some "5"%string) POINT (mkObj {[ "k"%string := Some (PString "v") ]} true) 18 4096) = layer_extent (mkLayer "a" 2 4096 1 [8] ["k"%string] [PString "v"] LongNumber).
Proof.
  refine (feature_extent_of_layer (R := Wire.reader) 50 (mkLayer "a" 2 4096 1 [8] ["k"%string] [PString "v"] LongNumber) 0 Tiles.point_tile 33 (mkFeature (Some "5"%string) POINT (mkObj {[ "k"%string := Some (PString "v") ]} true) 18 4096) 22 _).
  vm_compute. reflexivity.
Defined.

(** X14: every property of a decoded feature is named after an entry of the
    key table of its layer, or "undefined", and holds an entry of the value
    table, or [undefined]. *)
Theorem feature_properties_from_tables {R : BinaryReader} fuel (l : Layer) index_
    buf pos f pos' :
  feature fuel l index_ buf pos = Ret f pos' ->
  forall k v, own (properties f) !! k = Some v -> from_tables (keys l) (values l) k v.
Proof.
  intros H. apply feature_Ret in H as (offset & end_ & p & _ & _ & H).
  now apply Feature_new_from_tables in H.
Qed.

Lemma feature_properties_from_tables_witness :
  from_tables ["k"%string] [PString "v"] "k" (Some (PString "v")).
Proof.
  refine (feature_properties_from_tables (R := Wire.reader) 50 (mkLayer "a" 2 4096 1 [8] ["k"%string] [PString "v"] LongNumber) 0 Tiles.point_tile 33
            (mkFeature (Some "5"%string) POINT (mkObj {[ "k"%string := Some (PString "v") ]} true) 18 4096) 22 _ "k"%string (Some (PString "v")) _).
  - vm_compute. reflexivity.
  - vm_compute. reflexivity.
Defined.

Section GeometryOffset.
Context {R : BinaryReader}.

Lemma while_lt_fold {St : Type} (g : St -> Z) (step : Z -> Z -> Z)
    (body : nat -> St -> M St) buf end_ :
  (forall n s pos s' pos', body n s buf pos = Ret s' pos' -> g s' = step (g s) pos) ->
  forall fuel s pos s' pos',
    while_lt fuel end_ body s buf pos = Ret s' pos' ->
    g s' = fold_left step (while_starts fuel end_ body s buf pos) (g s).
Proof.
  intros Hbody. induction fuel as [| n IH]; intros s pos s' pos'; cbn.
  - destruct (pos <? end_); [discriminate | intros [= <- _]; reflexivity].
  - destruct (pos <? end_); [| intros [= <- _]; reflexivity].
    intros H. apply bind_Ret in H as (s1 & p1 & Hs1 & Hrest).
    rewrite Hs1. cbn [fold_left]. rewrite <- (Hbody _ _ _ _ _ Hs1).
    eapply IH, Hrest.
Qed.

(** What an iteration of the feature scan does to the geometry offset. *)
Lemma Feature_body_geometry_field keys values n f buf pos f' pos' :
  Feature_body keys values n f buf pos = Ret f' pos' ->
  geometryOffset f' = geometry_field buf (geometryOffset f) pos.
Proof.
  intros H. unfold Feature_body in H.
  apply bind_Ret in H as ([fieldId wireType] & p0 & Htag & H). apply lift_Ret in Htag.
  unfold geometry_field. rewrite Htag.
  destruct (Z.eqb_spec fieldId 1) as [-> | _].
  { apply bind_Ret in H as (? & ? & _ & H). injection H as <- _. reflexivity. }
  destruct (Z.eqb_spec fieldId 2) as [-> | _].
  { apply bind_Ret in H as (? & ? & _ & H). apply bind_Ret in H as (? & ? & _ & H).
    apply bind_Ret in H as (? & ? & _ & H). injection H as <- _. reflexivity. }
  destruct (Z.eqb_spec fieldId 3) as [-> | _].
  { apply bind_Ret in H as (? & ? & _ & H). injection H as <- _. reflexivity. }
  destruct (Z.eqb_spec fieldId 4) as [-> | _].
  { apply bind_Ret in H as (p & p1 & Hp & H). injection Hp as <- <-.
    apply bind_Ret in H as (? & ? & _ & H). injection H as <- _. reflexivity. }
  injection H as <- _. reflexivity.
Qed.

Lemma Feature_body_geometryOffset keys values n f buf pos f' pos' :
  Feature_body keys values n f buf pos = Ret f' pos' ->
  geometryOffset f' = geometryOffset f
  \/ exists t, rd_tag buf pos = ROk t (geometryOffset f').
Proof.
  intros H. apply Feature_body_geometry_field in H. rewrite H.
  unfold geometry_field.
  destruct (rd_tag buf pos) as [[fieldId wireType] q | msg q]; [| now left].
  destruct (fieldId =? 4); [right; eauto | now left].
Qed.

Context {L : ReaderLaws R}.

Lemma Feature_new_geometryOffset fuel end_ keys values extent buf pos f pos' :
  Feature_new fuel end_ keys values extent buf pos = Ret f pos' ->
  geometryOffset f = 0 \/ pos < geometryOffset f <= len buf.
Proof.
  unfold Feature_new. intros Hloop.
  enough (Hinv : pos <= pos' /\ (geometryOffset f = 0 \/ pos < geometryOffset f <= len buf))
    by apply Hinv.
  revert Hloop.
  apply (while_lt_invariant_pos
           (fun f q => pos <= q
                       /\ (geometryOffset f = 0 \/ pos < geometryOffset f <= len buf))).
  - intros n s q s' q' [Hq Hs] Hbody.
    assert (Hadv : q < q' <= len buf).
    { apply (hoare_Ret _ _ _ _ _ _ _
               (Feature_body_advances false buf keys values n s q ltac:(discriminate))
               Hbody). }
    split; [lia |].
    apply Feature_body_geometryOffset in Hbody as [-> | (t & Ht)]; [exact Hs |].
    apply tag_advances in Ht. right. lia.
  - split; [lia | now left].
Qed.

End GeometryOffset.

(** X15: the geometry offset of a decoded feature is the position that
    follows the tag of the last field numbered 4 among the fields the
    constructor visited, and 0 when it visited none: each such field
    overwrites the offset and every other field leaves it as it was.
    Hence it is 0 or a position of the buffer after the length prefix of
    the feature. *)
Theorem feature_geometryOffset {R : BinaryReader} (L : ReaderLaws R)
    fuel (l : Layer) index_ buf pos f pos' :
  feature fuel l index_ buf pos = Ret f pos' ->
  geometryOffset f
  = fold_left (geometry_field buf) (feature_fields fuel l index_ buf) 0
  /\ (geometryOffset f = 0
      \/ nth (Z.to_nat index_) (featureOffsets l) 0 < geometryOffset f <= len buf).
Proof.
  intros H.
  destruct (Z_lt_ge_dec index_ 0) as [Hneg | Hpos];
    [rewrite feature_out_of_range in H by lia; discriminate |].
  destruct (Z_lt_ge_dec index_ (Z.of_nat (length (featureOffsets l)))) as [Hlt | Hge];
    [| rewrite feature_out_of_range in H by lia; discriminate].
  destruct (feature_in_range fuel l index_ buf pos ltac:(lia)) as (offset & Hoff & Heq).
  rewrite Heq in H. apply nth_lookup_Some with (d := 0) in Hoff.
  unfold feature_fields. rewrite Hoff.
  unfold Feature_at in H.
  apply bind_Ret in H as ([] & p0 & Hseek & H). injection Hseek as <-.
  apply bind_Ret in H as (n & p1 & Hn & H). apply lift_Ret in Hn. rewrite Hn.
  apply uint32_advances in Hn.
  apply bind_Ret in H as (p & p2 & Hp & H). injection Hp as <- <-.
  split.
  - unfold Feature_new in H.
    apply (while_lt_fold geometryOffset (geometry_field buf)) in H; [exact H |].
    intros k s q s' q' Hbody. eapply Feature_body_geometry_field, Hbody.
  - apply Feature_new_geometryOffset in H as [H | H]; [now left | right; lia].
Qed.

Lemma feature_geometryOffset_witness :
  geometryOffset (mkFeature (Some "5"%string) POINT (mkObj {[ "k"%string := Some (PString "v") ]} true) 18 4096)
  = fold_left (geometry_field (R := Wire.reader) Tiles.point_tile)
      (feature_fields (R := Wire.reader) 50
         (mkLayer "a" 2 4096 1 [8] ["k"%string] [PString "v"] LongNumber) 0
         Tiles.point_tile) 0
  /\ (geometryOffset (mkFeature (Some "5"%string) POINT (mkObj {[ "k"%string := Some (PString "v") ]} true) 18 4096) = 0
      \/ nth (Z.to_nat 0) (featureOffsets (mkLayer "a" 2 4096 1 [8] ["k"%string] [PString "v"] LongNumber)) 0
         < geometryOffset (mkFeature (Some "5"%string) POINT (mkObj {[ "k"%string := Some (PString "v") ]} true) 18 4096) <= len Tiles.point_tile).
Proof.
  refine (feature_geometryOffset (R := Wire.reader) WireFacts.laws 50 (mkLayer "a" 2 4096 1 [8] ["k"%string] [PString "v"] LongNumber) 0
            Tiles.point_tile 33 (mkFeature (Some "5"%string) POINT (mkObj {[ "k"%string := Some (PString "v") ]} true) 18 4096) 22 _).
  vm_compute. reflexivity.
Defined.

Section LayerScan.
Context {R : BinaryReader}.

Lemma StronglySorted_snoc (l : list Z) (o : Z) :
  StronglySorted Z.lt l -> Forall (fun a => a < o) l -> StronglySorted Z.lt (l ++ [o]).
Proof.
  induction 1 as [| a l Hl IH Ha]; intros Hlt; cbn.
  - repeat constructor.
  - apply Forall_cons in Hlt as [Hao Hlt]. constructor; [now apply IH |].
    apply Forall_app. split; [exact Ha | now constructor].
Qed.

(** What an iteration of the layer scan does to the offset index. *)
Lemma Layer_body_offsets longType n l buf pos l' pos' :
  Layer_body longType n l buf pos = Ret l' pos' ->
  layer_longType l' = layer_longType l
  /\ (featureOffsets l' = featureOffsets l
      \/ exists t o w,
          rd_tag buf pos = ROk t o /\ rd_skip w buf o = ROk tt pos'
          /\ featureOffsets l' = featureOffsets l ++ [o]).
Proof.
  intros H. unfold Layer_body in H.
  apply bind_Ret in H as ([fieldId wireType] & p0 & Htag & H). apply lift_Ret in Htag.
  repeat match type of H with
         | (if ?c then _ else _) _ _ = _ => destruct c
         end.
  1-3, 5-6: apply bind_Ret in H as (? & ? & _ & H); injection H as <- _; now split; [| left].
  - apply bind_Ret in H as (p & p1 & Hp & H). injection Hp as <- <-.
    apply bind_Ret in H as ([] & p2 & Hskip & H). apply lift_Ret in Hskip.
    injection H as <- <-. split; [reflexivity |]. right. eauto 10.
  - injection H as <- _. now split; [| left].
Qed.

Lemma Layer_new_longType fuel end_ longType buf pos l pos' :
  Layer_new fuel end_ longType buf pos = Ret l pos' -> layer_longType l = longType.
Proof.
  unfold Layer_new. intros H. apply bind_Ret in H as (l0 & p & Hloop & H).
  injection H as <- _. cbn. revert Hloop.
  apply (while_lt_invariant (fun l => layer_longType l = longType)); [| reflexivity].
  intros n s p0 s' p' Hs Hbody. apply Layer_body_offsets in Hbody as [-> _]. exact Hs.
Qed.

Context {L : ReaderLaws R}.

Lemma Layer_new_offsets fuel end_ longType buf pos l pos' :
  Layer_new fuel end_ longType buf pos = Ret l pos' ->
  StronglySorted Z.lt (featureOffsets l)
  /\ Forall (fun o => pos < o <= len buf) (featureOffsets l).
Proof.
  unfold Layer_new. intros H. apply bind_Ret in H as (l0 & p & Hloop & H).
  injection H as <- _. cbn [featureOffsets set_length].
  enough (Hinv : pos <= p
                 /\ StronglySorted Z.lt (featureOffsets l0)
                 /\ Forall (fun o => pos < o <= len buf /\ o <= p) (featureOffsets l0)).
  { destruct Hinv as (_ & Hs & Hf). split; [exact Hs |].
    eapply Forall_impl; [exact Hf |]. cbv beta. intros; lia. }
  revert Hloop.
  apply (while_lt_invariant_pos
           (fun l q => pos <= q
                       /\ StronglySorted Z.lt (featureOffsets l)
                       /\ Forall (fun o => pos < o <= len buf /\ o <= q) (featureOffsets l))).
  - intros n s q s' q' (Hq & Hs & Hf) Hbody.
    assert (Hadv : q < q' <= len buf).
    { apply (hoare_Ret _ _ _ _ _ _ _
               (Layer_body_advances false buf longType n s q ltac:(discriminate)) Hbody). }
    assert (Hf' : Forall (fun o => pos < o <= len buf /\ o <= q') (featureOffsets s)).
    { eapply Forall_impl; [exact Hf |]. cbv beta. intros; lia. }
    apply Layer_body_offsets in Hbody as [_ [-> | (t & o & w & Ht & Hw & ->)]].
    + repeat split; [lia | exact Hs | exact Hf'].
    + apply tag_advances in Ht. apply skip_bounded in Hw.
      repeat split; [lia | |].
      * apply StronglySorted_snoc; [exact Hs |].
        eapply Forall_impl; [exact Hf |]. cbv beta. intros; lia.
      * apply Forall_app. split; [exact Hf' |]. constructor; [lia | constructor].
  - repeat split; [lia | constructor | constructor].
Qed.

End LayerScan.

(** X16: in the layers map of a decoded tile every layer is stored under its
    own name, which is never [__proto__], and carries the long type the
    tile was built with. *)
Theorem VectorTile_layers_by_name {R : BinaryReader} fuel bytes longType tile pos' :
  VectorTile_new fuel bytes longType = Ret tile pos' ->
  forall name l,
    own (layers tile) !! name = Some l ->
    layer_name l = name /\ name <> "__proto__"%string /\ layer_longType l = longType.
Proof.
  unfold VectorTile_new. intros H.
  apply bind_Ret in H as (end_ & p0 & _ & H).
  apply bind_Ret in H as (ls & p1 & Hloop & H). injection H as <- _. cbn [layers].
  enough (Hinv : proto_accessor ls = true
                 /\ forall name l,
                     own ls !! name = Some l ->
                     layer_name l = name /\ name <> "__proto__"%string
                     /\ layer_longType l = longType) by apply Hinv.
  revert Hloop.
  apply (while_lt_invariant
           (fun ls : obj Layer =>
              proto_accessor ls = true
              /\ forall name l,
                  own ls !! name = Some l ->
                  layer_name l = name /\ name <> "__proto__"%string
                  /\ layer_longType l = longType)).
  - intros n s pos s' p' [Hacc Hs] Hbody. unfold VectorTile_body in Hbody.
    apply bind_Ret in Hbody as (? & ? & _ & Hbody).
    apply bind_Ret in Hbody as (? & ? & _ & Hbody).
    apply bind_Ret in Hbody as (? & ? & _ & Hbody).
    apply bind_Ret in Hbody as (layer & ? & Hlayer & Hbody).
    injection Hbody as <- _. apply Layer_new_longType in Hlayer.
    destruct (layer_length layer =? 0); [now split |].
    unfold obj_set. rewrite Hacc, andb_true_r.
    destruct (String.eqb_spec (layer_name layer) "__proto__") as [Hp | Hp]; [now split |].
    cbn. split; [reflexivity |]. intros name l. rewrite lookup_insert.
    destruct (decide (layer_name layer = name)) as [<- |]; [| apply Hs].
    intros [= <-]. auto.
  - split; [reflexivity |]. intros name l. unfold obj_empty. cbn [own].
    rewrite lookup_empty. discriminate.
Qed.

Lemma VectorTile_layers_by_name_witness :
  layer_name (mkLayer "a" 2 4096 1 [8] ["k"%string] [PString "v"] LongNumber) = "a"%string
  /\ "a"%string <> "__proto__"%string
  /\ layer_longType (mkLayer "a" 2 4096 1 [8] ["k"%string] [PString "v"] LongNumber) = LongNumber.
Proof.
  refine (VectorTile_layers_by_name (R := Wire.reader) 50 Tiles.point_tile LongNumber
            (mkVectorTile (mkObj {[ "a"%string := (mkLayer "a" 2 4096 1 [8] ["k"%string] [PString "v"] LongNumber) ]} true) LongNumber) 33 _ "a"%string (mkLayer "a" 2 4096 1 [8] ["k"%string] [PString "v"] LongNumber) _).
  all: vm_compute; reflexivity.
Defined.

(** X17: the feature offsets of every layer of a decoded tile are strictly
    increasing positions inside the buffer. *)
Theorem VectorTile_feature_offsets {R : BinaryReader} (L : ReaderLaws R)
    fuel bytes longType tile pos' :
  VectorTile_new fuel bytes longType = Ret tile pos' ->
  forall name l,
    own (layers tile) !! name = Some l ->
    StronglySorted Z.lt (featureOffsets l)
    /\ Forall (fun o => 0 < o <= len bytes) (featureOffsets l).
Proof.
  unfold VectorTile_new. intros H.
  apply bind_Ret in H as (end_ & p0 & Hlen & H). injection Hlen as <- <-.
  apply bind_Ret in H as (ls & p1 & Hloop & H). injection H as <- _. cbn [layers].
  enough (Hinv : 0 <= p1
                 /\ forall name l,
                     own ls !! name = Some l ->
                     StronglySorted Z.lt (featureOffsets l)
                     /\ Forall (fun o => 0 < o <= len bytes) (featureOffsets l))
    by apply Hinv.
  revert Hloop.
  apply (while_lt_invariant_pos
           (fun (ls : obj Layer) q =>
              0 <= q
              /\ forall name l,
                  own ls !! name = Some l ->
                  StronglySorted Z.lt (featureOffsets l)
                  /\ Forall (fun o => 0 < o <= len bytes) (featureOffsets l))).
  - intros n s pos s' p' [Hpos Hs] Hbody.
    assert (Hadv : pos < p' <= len bytes).
    { apply (hoare_Ret _ _ _ _ _ _ _
               (VectorTile_body_advances false bytes longType n s pos ltac:(discriminate))
               Hbody). }
    split; [lia |]. unfold VectorTile_body in Hbody.
    apply bind_Ret in Hbody as (? & q1 & H1 & Hbody). apply lift_Ret, uint32_advances in H1.
    apply bind_Ret in Hbody as (? & q2 & H2 & Hbody). apply lift_Ret, uint32_advances in H2.
    apply bind_Ret in Hbody as (? & ? & Hq & Hbody). injection Hq as <- <-.
    apply bind_Ret in Hbody as (layer & ? & Hlayer & Hbody).
    injection Hbody as <- _. apply Layer_new_offsets in Hlayer as [Hsorted Hin].
    destruct (layer_length layer =? 0); [exact Hs |].
    unfold obj_set. destruct (_ && _); [exact Hs |].
    cbn. intros name l. rewrite lookup_insert.
    destruct (decide (layer_name layer = name)); [| apply Hs].
    intros [= <-]. split; [exact Hsorted |].
    eapply Forall_impl; [exact Hin |]. cbv beta. intros; lia.
  - split; [lia |]. intros name l. unfold obj_empty. cbn [own].
    rewrite lookup_empty. discriminate.
Qed.

Lemma VectorTile_feature_offsets_witness :
  StronglySorted Z.lt (featureOffsets (mkLayer "a" 2 4096 1 [8] ["k"%string] [PString "v"] LongNumber))
  /\ Forall (fun o => 0 < o <= len Tiles.point_tile) (featureOffsets (mkLayer "a" 2 4096 1 [8] ["k"%string] [PString "v"] LongNumber)).
Proof.
  refine (VectorTile_feature_offsets (R := Wire.reader) WireFacts.laws 50 Tiles.point_tile LongNumber
            (mkVectorTile (mkObj {[ "a"%string := (mkLayer "a" 2 4096 1 [8] ["k"%string] [PString "v"] LongNumber) ]} true) LongNumber) 33 _ "a"%string (mkLayer "a" 2 4096 1 [8] ["k"%string] [PString "v"] LongNumber) _).
  all: vm_compute; reflexivity.
Defined.

(** X18: a tile that decodes has been read to the end of the buffer. *)
Theorem VectorTile_reads_whole_buffer {R : BinaryReader} (L : ReaderLaws R)
    fuel bytes longType tile pos' :
  VectorTile_new fuel bytes longType = Ret tile pos' -> pos' = len bytes.
Proof.
  unfold VectorTile_new. intros H.
  apply bind_Ret in H as (end_ & p0 & Hlen & H). injection Hlen as <- <-.
  apply bind_Ret in H as (ls & p1 & Hloop & H). injection H as _ <-.
  pose proof (while_lt_exit _ _ _ _ _ _ _ _ Hloop) as Hexit.
  assert (Hle : 0 <= p1 <= len bytes).
  { apply (hoare_Ret _ _ _ _ _ _ _
             (hoare_while false (VectorTile_body longType) bytes (len bytes)
                (fun n s p _ => VectorTile_body_advances false bytes longType n s p
                                  ltac:(discriminate))
                fuel obj_empty 0 ltac:(unfold len; lia) ltac:(discriminate)) Hloop). }
  lia.
Qed.

Lemma VectorTile_reads_whole_buffer_witness :
  33 = len Tiles.point_tile.
Proof.
  refine (VectorTile_reads_whole_buffer (R := Wire.reader) WireFacts.laws 50 Tiles.point_tile LongNumber
            (mkVectorTile (mkObj {[ "a"%string := (mkLayer "a" 2 4096 1 [8] ["k"%string] [PString "v"] LongNumber) ]} true) LongNumber) 33 _).
  all: vm_compute; reflexivity.
Defined.
